(** * The IPP attribute decoder of [tools/generate_ipp.py]

    A shallow embedding of the decoding engine of the script: the tag
    classifiers, the bounds-checked readers, the per-type value extractors,
    the attribute assembler and the [while] loop of [main].

    Conventions of the embedding.
    - [ascii_values] is the list of integers produced by
      [extract_ascii_values]; every element comes from a two-digit hex token,
      so it is a byte, and the stream is a [list byte].
    - A Python [dict] literal is an association list read with [lookup]; the
      document [ipp_attributes] is an insertion-ordered association list.
    - [raise SystemExit] and the uncaught Python exceptions are the
      constructors of [error]; functions that can raise return a [result].
    - The [while] loop of [main] runs on fuel; [main] gives it more fuel than
      the loop can use, which [main_total] proves. *)

From Stdlib Require Import List String Ascii Bool Arith NArith ZArith Lia.
From Stdlib.Strings Require Import Byte.
Import ListNotations.
Open Scope string_scope.
Open Scope list_scope.

(** ** Errors and the error monad *)

(** The ways a run of the script stops without writing its output.  The first
    six are the [raise SystemExit] sites, named after the message printed just
    before; the last three are Python exceptions no handler catches. *)
Inductive error : Type :=
| UnsupportedDelimiter   (* get_delimiter_name: "is not a supported ipp delimiter" *)
| UnsupportedValueTag    (* get_value_type: "is not a supported IPP value tag" *)
| OutOfBounds            (* check_data_boundary: "Length is greater than remaining elements" *)
| InvalidFixedLength     (* extract_*_value: "Length must be exactly n" *)
| UnsupportedValueType   (* extract_value: "value_type is not in function map" *)
| UnterminatedMessage    (* main: "Reached end of input without parsing 'endOfAttributes'" *)
| KeyError               (* attributes[group] with a key the dict lacks (group is None) *)
| AttributeIndexError    (* attributes[group][-1] on an empty list *)
| StreamIndexError.      (* data[k] with k outside the stream *)

Inductive result (A : Type) : Type :=
| Ok (a : A)
| Err (e : error).
Arguments Ok {A} a.
Arguments Err {A} e.

Definition bind {A B : Type} (c : result A) (k : A -> result B) : result B :=
  match c with
  | Ok a => k a
  | Err e => Err e
  end.

Notation "x <- c ;; k" := (bind c (fun x => k))
  (at level 61, c at next level, right associativity).
Notation "' p <- c ;; k" := (bind c (fun x => let 'p := x in k))
  (at level 61, p pattern, c at next level, right associativity).

(** ** Python data *)

(** A dict literal with keys of type [K], read by [k in d] and [d[k]]. *)
Fixpoint lookup {K V : Type} (eqb : K -> K -> bool) (k : K) (d : list (K * V))
  : option V :=
  match d with
  | [] => None
  | (k', v) :: d' => if eqb k k' then Some v else lookup eqb k d'
  end.

(** The values the extractors build: [str], [int], [bool] and [list]. *)
#[warnings="-register-all"]
Inductive pyvalue : Type :=
| PStr (s : string)
| PInt (n : N)
| PBool (b : bool)
| PList (l : list pyvalue).

(** [type(v) is list] *)
Definition is_list (v : pyvalue) : bool :=
  match v with
  | PList _ => true
  | _ => false
  end.

(** The dict [{'type': .., 'name': .., 'value': ..}] of one attribute. *)
Record attribute : Type := mk_attribute {
  attr_type : string;
  attr_name : pyvalue;
  attr_value : pyvalue
}.

(** [ipp_attributes]: group name to the list of its attributes, in insertion
    order. *)
Definition document : Type := list (string * list attribute).

Definition dict_get (d : document) (k : string) : option (list attribute) :=
  lookup String.eqb k d.

(** [d[k] = v]: an existing key keeps its place, a new key goes last. *)
Fixpoint dict_set (d : document) (k : string) (v : list attribute) : document :=
  match d with
  | [] => [(k, v)]
  | (k', v') :: d' =>
      if String.eqb k k' then (k', v) :: d' else (k', v') :: dict_set d' k v
  end.

Definition keys (d : document) : list string := map fst d.

(** [data[k]] for [k >= 0]. *)
Definition get (data : list byte) (k : nat) : result byte :=
  match nth_error data k with
  | Some b => Ok b
  | None => Err StreamIndexError
  end.

(** [for k in idx: acc = body(acc, k)], stopping at the first exception. *)
Fixpoint for_range {A : Type} (idx : list nat) (body : A -> nat -> result A)
  (acc : A) : result A :=
  match idx with
  | [] => Ok acc
  | k :: idx' => acc' <- body acc k ;; for_range idx' body acc'
  end.

(** [chr(b)] for a byte. *)
Definition chr (b : byte) : string := String (ascii_of_byte b) EmptyString.

(** ** Tag classification *)

Definition is_ipp_delimiter (ascii_val : byte) : bool :=
  existsb (Byte.eqb ascii_val) [x01; x02; x03; x04].

Definition delimiters_map : list (byte * string) :=
  [ (x01, "operationAttributes");
    (x02, "jobAttributes");
    (x03, "endOfAttributes");
    (x04, "printerAttributes") ].

Definition get_delimiter_name (ipp_delimiter : byte) : result string :=
  match lookup Byte.eqb ipp_delimiter delimiters_map with
  | Some name => Ok name
  | None => Err UnsupportedDelimiter
  end.

Definition values_map : list (byte * string) :=
  [ (x13, "no-value");
    (x21, "integer");
    (x22, "boolean");
    (x23, "enum");
    (x30, "octetString");
    (x31, "dateTime");
    (x32, "resolution");
    (x33, "rangeOfInteger");
    (x34, "begCollection");
    (x37, "endCollection");
    (x41, "textWithoutLanguage");
    (x42, "nameWithoutLanguage");
    (x44, "keyword");
    (x45, "uri");
    (x46, "uriScheme");
    (x47, "charset");
    (x48, "naturalLanguage");
    (x49, "mimeMediaType");
    (x4a, "memberAttrName") ].

Definition get_value_type (value_tag : byte) : result string :=
  match lookup Byte.eqb value_tag values_map with
  | None => Err UnsupportedValueTag
  | Some name => Ok name
  end.

(** ** Bounds-checked readers *)

(** [if len(data) - start < length: raise SystemExit]; the difference is an
    integer, so it is taken in [Z]. *)
Definition check_data_boundary (data : list byte) (start length : nat)
  : result unit :=
  if (Z.of_nat (List.length data) - Z.of_nat start <? Z.of_nat length)%Z
  then Err OutOfBounds
  else Ok tt.

Definition extract_string_value (data : list byte) (start length : nat)
  : result (pyvalue * nat) :=
  _ <- check_data_boundary data start length ;;
  value <- for_range (seq start length)
             (fun value i => b <- get data i ;; Ok (value ++ chr b)%string)
             "" ;;
  Ok (PStr value, start + length).

Definition extract_byte_value (data : list byte) (start length : nat)
  : result (pyvalue * nat) :=
  if negb (length =? 1)%nat then Err InvalidFixedLength else
  _ <- check_data_boundary data start length ;;
  b <- get data start ;;
  Ok (PInt (Byte.to_N b), start + length).

Definition extract_boolean_value (data : list byte) (start length : nat)
  : result (pyvalue * nat) :=
  if negb (length =? 1)%nat then Err InvalidFixedLength else
  _ <- check_data_boundary data start length ;;
  value <- get data start ;;
  Ok (PBool (negb (Byte.eqb value x00)), start + length).

Definition extract_integer_value (data : list byte) (start length : nat)
  : result (pyvalue * nat) :=
  if negb (length =? 4)%nat then Err InvalidFixedLength else
  _ <- check_data_boundary data start length ;;
  value <- for_range (seq start length)
             (fun value i =>
                ascii_val <- get data i ;;
                Ok ((value * 256) + Byte.to_N ascii_val)%N)
             0%N ;;
  Ok (PInt value, start + length).

Definition extract_bytes_value (data : list byte) (start length : nat)
  : result (pyvalue * nat) :=
  _ <- check_data_boundary data start length ;;
  value <- for_range (seq start length)
             (fun value i => b <- get data i ;; Ok (value ++ [PInt (Byte.to_N b)]))
             [] ;;
  Ok (PList value, start + length).

Definition extract_resolution_value (data : list byte) (start length : nat)
  : result (pyvalue * nat) :=
  if negb (length =? 9)%nat then Err InvalidFixedLength else
  _ <- check_data_boundary data start length ;;
  '(x_res, new_start) <- extract_integer_value data start 4 ;;
  '(y_res, new_start) <- extract_integer_value data new_start 4 ;;
  '(units, new_start) <- extract_byte_value data new_start 1 ;;
  Ok (PList [x_res; y_res; units], new_start).

Definition extract_range_value (data : list byte) (start length : nat)
  : result (pyvalue * nat) :=
  if negb (length =? 8)%nat then Err InvalidFixedLength else
  _ <- check_data_boundary data start length ;;
  '(lower, new_start) <- extract_integer_value data start 4 ;;
  '(upper, new_start) <- extract_integer_value data new_start 4 ;;
  Ok (PList [lower; upper], new_start).

Definition extractor : Type := list byte -> nat -> nat -> result (pyvalue * nat).

Definition function_map : list (string * extractor) :=
  [ ("no-value", extract_string_value);
    ("integer", extract_integer_value);
    ("boolean", extract_boolean_value);
    ("enum", extract_integer_value);
    ("octetString", extract_bytes_value);
    ("dateTime", extract_bytes_value);
    ("resolution", extract_resolution_value);
    ("rangeOfInteger", extract_range_value);
    ("begCollection", extract_string_value);
    ("endCollection", extract_string_value);
    ("textWithoutLanguage", extract_string_value);
    ("nameWithoutLanguage", extract_string_value);
    ("keyword", extract_string_value);
    ("uri", extract_string_value);
    ("uriScheme", extract_string_value);
    ("charset", extract_string_value);
    ("naturalLanguage", extract_string_value);
    ("mimeMediaType", extract_string_value);
    ("memberAttrName", extract_string_value) ].

Definition extract_value (data : list byte) (value_type : string)
  (start length : nat) : result (pyvalue * nat) :=
  _ <- check_data_boundary data start length ;;
  match lookup String.eqb value_type function_map with
  | None => Err UnsupportedValueType
  | Some f => f data start length
  end.

Definition extract_length (data : list byte) (start : nat) : result (nat * nat) :=
  _ <- check_data_boundary data start 2 ;;
  hi <- get data start ;;
  lo <- get data (start + 1) ;;
  Ok ((256 * Byte.to_nat hi) + Byte.to_nat lo, start + 2).

(** ** The attribute assembler *)

(** [attributes[group]], where [group] may still be [None]. *)
Definition getitem (attributes : document) (group : option string)
  : result (string * list attribute) :=
  match group with
  | None => Err KeyError
  | Some g =>
      match dict_get attributes g with
      | None => Err KeyError
      | Some l => Ok (g, l)
      end
  end.

(** The list of the group is changed in place: the entry at index
    [len(attributes[group]) - 1] gets its value wrapped in a list unless it is
    one already, and [value] is appended to that list.  On an empty group the
    index is [-1], which a list of length 0 rejects. *)
Definition extend_attribute_values (attributes : document)
  (group : option string) (value : pyvalue) : result document :=
  '(g, l) <- getitem attributes group ;;
  match rev l with
  | [] => Err AttributeIndexError
  | attribute :: before =>
      let list_value :=
        match attr_value attribute with
        | PList vs => vs
        | v => [v]
        end in
      Ok (dict_set attributes g
            (rev before ++
             [ {| attr_type := attr_type attribute;
                  attr_name := attr_name attribute;
                  attr_value := PList (list_value ++ [value]) |} ]))
  end.

Definition add_attribute (attributes : document) (group : option string)
  (value_type : string) (value_name value : pyvalue) : result document :=
  '(g, l) <- getitem attributes group ;;
  Ok (dict_set attributes g
        (l ++ [ {| attr_type := value_type;
                   attr_name := value_name;
                   attr_value := value |} ])).

(** ** The walker: the [while] loop of [main] *)

(** The variables the loop of [main] updates. *)
Record state : Type := mk_state {
  ipp_attributes : document;
  current_attributes_group : option string;
  prev_value_type : option string;
  i : nat
}.

(** [ipp_attributes = {}], [current_attributes_group = None],
    [prev_value_type = None], [i = 0]. *)
Definition initial_state : state :=
  {| ipp_attributes := [];
     current_attributes_group := None;
     prev_value_type := None;
     i := 0 |}.

(** How one pass through the loop body ends: at its last statement, at
    [break], or with an exception. *)
Inductive body_exit : Type :=
| Continue (st : state)
| Break (st : state)
| Raise (e : error).

Definition lift (c : result state) : body_exit :=
  match c with
  | Ok st => Continue st
  | Err e => Raise e
  end.

(** [cur_value_type == prev_value_type], where the latter may be [None]. *)
Definition same_type (cur_value_type : string) (prev : option string) : bool :=
  match prev with
  | Some p => String.eqb cur_value_type p
  | None => false
  end.

(** What the [else] branch of the loop body has read when it reaches the
    fold test: the classified type, the name length, the name, the value and
    the index to continue from. *)
Record entry : Type := mk_entry {
  cur_value_type : string;
  name_length : nat;
  name : pyvalue;
  value : pyvalue;
  next_i : nat
}.

(** The [else] branch up to the fold test: classify the tag at [i], then read
    the name length, the name, the value length and the value. *)
Definition read_entry (ascii_values : list byte) (ascii_val : byte) (i : nat)
  : result entry :=
  cur_value_type <- get_value_type ascii_val ;;
  let i := i + 1 in
  '(name_length, i) <- extract_length ascii_values i ;;
  '(name, i) <- extract_string_value ascii_values i name_length ;;
  '(value_length, i) <- extract_length ascii_values i ;;
  '(value, i) <- extract_value ascii_values cur_value_type i value_length ;;
  Ok {| cur_value_type := cur_value_type;
        name_length := name_length;
        name := name;
        value := value;
        next_i := i |}.

(** The fold test and what follows it: extend the last attribute of the
    group or add a new one, then remember the type. *)
Definition store_entry (st : state) (e : entry) : result state :=
  attributes <-
    (if same_type (cur_value_type e) (prev_value_type st)
        && (name_length e =? 0)%nat
     then extend_attribute_values (ipp_attributes st)
            (current_attributes_group st) (value e)
     else add_attribute (ipp_attributes st) (current_attributes_group st)
            (cur_value_type e) (name e) (value e)) ;;
  Ok {| ipp_attributes := attributes;
        current_attributes_group := current_attributes_group st;
        prev_value_type := Some (cur_value_type e);
        i := next_i e |}.

(** The [else] branch of the loop body: one value entry. *)
Definition value_entry (ascii_values : list byte) (ascii_val : byte) (st : state)
  : result state :=
  e <- read_entry ascii_values ascii_val (i st) ;;
  store_entry st e.

(** The body of [while i < len(ascii_values)], entered with [i] in range. *)
Definition loop_body (ascii_values : list byte) (st : state) : body_exit :=
  match get ascii_values (i st) with
  | Err e => Raise e
  | Ok ascii_val =>
      if is_ipp_delimiter ascii_val then
        if Byte.eqb ascii_val x03 then Break st
        else
          lift (current_attributes_group' <- get_delimiter_name ascii_val ;;
                Ok {| ipp_attributes :=
                        dict_set (ipp_attributes st) current_attributes_group' [];
                      current_attributes_group := Some current_attributes_group';
                      prev_value_type := prev_value_type st;
                      i := i st + 1 |})
      else lift (value_entry ascii_values ascii_val st)
  end.

(** The loop on fuel: [None] when the fuel runs out before the loop ends. *)
Fixpoint while_loop (fuel : nat) (ascii_values : list byte) (st : state)
  : option (result state) :=
  match fuel with
  | O => None
  | S fuel' =>
      if (i st <? List.length ascii_values)%nat then
        match loop_body ascii_values st with
        | Continue st' => while_loop fuel' ascii_values st'
        | Break st' => Some (Ok st')
        | Raise e => Some (Err e)
        end
      else Some (Ok st)
  end.

(** What follows the loop: the check that the loop left by [break], then the
    document handed to [json.dump]. *)
Definition after_loop (ascii_values : list byte) (st : state) : result document :=
  if (List.length ascii_values <=? i st)%nat then Err UnterminatedMessage
  else Ok (ipp_attributes st).

(** [main] from the bytes of the input file to the document it writes. *)
Definition main (ascii_values : list byte) : option (result document) :=
  match while_loop (S (List.length ascii_values)) ascii_values initial_state with
  | None => None
  | Some r => Some (st <- r ;; after_loop ascii_values st)
  end.

(** The state at the top of the loop after [n] full passes from [st]: [None]
    when the loop ended, broke or raised before. *)
Fixpoint run_steps (n : nat) (ascii_values : list byte) (st : state)
  : option state :=
  match n with
  | O => Some st
  | S n' =>
      if (i st <? List.length ascii_values)%nat then
        match loop_body ascii_values st with
        | Continue st' => run_steps n' ascii_values st'
        | _ => None
        end
      else None
  end.

(** The states the loop of [main] passes through at the top of the loop. *)
Definition reaches (ascii_values : list byte) (st : state) : Prop :=
  exists n, run_steps n ascii_values initial_state = Some st.

(** ** The hex tokens of the input file *)

(** The tokens are the strings [in_file.read().split()] returns, taken here
    as strings of 8-bit characters; the pattern below rejects every other
    character.  What [extract_ascii_values] ends with: the list of integers,
    or [SystemExit] after printing the token it rejected. *)
Inductive lexed : Type :=
| Values (ascii_values : list N)
| InvalidByteString (val : string).

(** The character class [[a-fA-F0-9]]. *)
Definition is_hex_digit (c : ascii) : bool :=
  let n := N_of_ascii c in
  ((48 <=? n) && (n <=? 57) || (65 <=? n) && (n <=? 70)
   || (97 <=? n) && (n <=? 102))%N.

(** [re.match('^[a-fA-F0-9]{2}$', val) is not None]: two hex digits, then the
    end of the string or a single newline that ends it. *)
Definition re_match_hex2 (val : string) : bool :=
  match val with
  | String a (String b rest) =>
      is_hex_digit a && is_hex_digit b
      && (String.eqb rest "" || String.eqb rest (String "010"%char ""))
  | _ => false
  end.

(** The value of a hex digit. *)
Definition hex_value (c : ascii) : N :=
  let n := N_of_ascii c in
  (if n <=? 57 then n - 48 else if n <=? 70 then n - 55 else n - 87)%N.

(** [int(val, 16)] on a token [re_match_hex2] accepts (a newline after the
    digits is skipped by [int]). *)
Definition int16 (val : string) : N :=
  match val with
  | String a (String b _) => (16 * hex_value a + hex_value b)%N
  | _ => 0%N
  end.

(** The loop of [extract_ascii_values], [ascii_values] the list built so
    far. *)
Fixpoint extract_ascii_values_from (data : list string) (ascii_values : list N)
  : lexed :=
  match data with
  | [] => Values ascii_values
  | val :: data' =>
      if negb (re_match_hex2 val) then InvalidByteString val
      else extract_ascii_values_from data' (ascii_values ++ [int16 val])
  end.

Definition extract_ascii_values (data : list string) : lexed :=
  extract_ascii_values_from data [].

(** ** Vocabulary of the properties *)

(** The two lowercase hex digits of a byte, as a token of the input file. *)
Definition hex_char (n : N) : ascii :=
  ascii_of_N (if (n <? 10)%N then n + 48 else n + 87)%N.

Definition hex_token (b : byte) : string :=
  let n := Byte.to_N b in
  String (hex_char (n / 16)%N) (String (hex_char (n mod 16)%N) "").

(** The unsigned big-endian number a list of bytes spells. *)
Definition big_endian (bs : list byte) : N :=
  fold_left (fun value b => (value * 256 + Byte.to_N b)%N) bs 0%N.

(** The value types whose decoded value is a Python list. *)
Definition list_valued_types : list string :=
  [ "octetString"; "dateTime"; "resolution"; "rangeOfInteger" ].

(** The errors [main] can end with. *)
Definition main_errors : list error :=
  [ UnsupportedValueTag; OutOfBounds; InvalidFixedLength; KeyError;
    AttributeIndexError; UnterminatedMessage ].

(** After the first pass of the loop the current group is set and is a key
    of the document. *)
Definition group_in_document (st : state) : Prop :=
  match current_attributes_group st with
  | None => st = initial_state
  | Some g => exists l, dict_get (ipp_attributes st) g = Some l
  end.

(** Every attribute of the document has the name of a value type as its
    type and a string as its name. *)
Definition well_formed_attribute (a : attribute) : Prop :=
  In (attr_type a) (map snd values_map) /\ exists s, attr_name a = PStr s.

Definition well_formed_document (d : document) : Prop :=
  forall g l a, In (g, l) d -> In a l -> well_formed_attribute a.

(** The fixed-size value types and the length each requires. *)
Definition fixed_sizes : list (string * nat) :=
  [ ("boolean", 1); ("integer", 4); ("enum", 4); ("resolution", 9);
    ("rangeOfInteger", 8) ].

(** The names of the attribute groups: the delimiter names but that of the
    terminator. *)
Definition group_names : list string :=
  [ "operationAttributes"; "jobAttributes"; "printerAttributes" ].

(** The two-byte big-endian number at index [p], bytes past the end read
    as 0. *)
Definition declared_length (data : list byte) (p : nat) : nat :=
  256 * Byte.to_nat (nth p data x00) + Byte.to_nat (nth (p + 1) data x00).

(** The entry whose tag is at index [p] declares something the rest of the
    stream cannot satisfy: the name length field, the name, the value length
    field or the value runs past the end. *)
Definition entry_truncated (data : list byte) (p : nat) : bool :=
  let len := List.length data in
  let name_length := declared_length data (p + 1) in
  let value_length := declared_length data (p + 1 + 2 + name_length) in
  (len <? p + 1 + 2)%nat
  || (len <? p + 1 + 2 + name_length)%nat
  || (len <? p + 1 + 2 + name_length + 2)%nat
  || (len <? p + 1 + 2 + name_length + 2 + value_length)%nat.

(** The extraction functions of the script that take a start index and a
    length. *)
Definition extractors : list extractor :=
  [ extract_string_value; extract_byte_value; extract_boolean_value;
    extract_integer_value; extract_bytes_value; extract_resolution_value;
    extract_range_value ].

(** What every extractor of [function_map] does: it returns the index
    [start + length], which is inside the stream, or it raises for a wrong
    fixed length, or it raises [OutOfBounds] because the stream is too short. *)
Definition extractor_post (data : list byte) (start length : nat)
  (r : result (pyvalue * nat)) : Prop :=
  match r with
  | Ok (_, c) => c = start + length /\ start + length <= List.length data
  | Err e =>
      e = InvalidFixedLength \/
      (e = OutOfBounds /\ List.length data < start + length)
  end.

(** An extractor whose successes carry over to every extension. *)
Definition stable (f : extractor) : Prop :=
  forall (t s : list byte) (start length : nat) (r : pyvalue * nat),
    f t start length = Ok r -> f (t ++ s) start length = Ok r.

(** An extractor whose successes on a stream are successes on every prefix
    that still holds the bytes it was asked for. *)
Definition restrictable (f : extractor) : Prop :=
  forall (t s : list byte) (start length : nat) (r : pyvalue * nat),
    f (t ++ s) start length = Ok r -> start + length <= List.length t ->
    f t start length = Ok r.

(** An extractor that, when the bytes it is asked for are there, returns
    unless the length alone makes it reject. *)
Definition decided_by_length (f : extractor) : Prop :=
  forall (t : list byte) (start length : nat),
    start + length <= List.length t ->
    (exists r, f t start length = Ok r) \/
    (forall data, f data start length = Err InvalidFixedLength).

(** The keys of the document under construction are group names. *)
Definition keys_are_groups (st : state) : Prop :=
  forall k, In k (keys (ipp_attributes st)) -> In k group_names.

(** [data[start:start+length]] *)
Definition slice (data : list byte) (start length : nat) : list byte :=
  firstn length (skipn start data).

(** * Properties *)

(** ** The error monad *)

Lemma bind_Ok {A B : Type} (c : result A) (k : A -> result B) (b : B) :
  bind c k = Ok b -> exists a, c = Ok a /\ k a = Ok b.
Proof.
  destruct c as [a|e]; simpl; intros H; [exists a; auto | discriminate].
Qed.

(** Inverts a hypothesis [bind c k = Ok b]. *)
Ltac bind_inv H :=
  let a := fresh "a" in
  let Ha := fresh "Ha" in
  apply bind_Ok in H; destruct H as (a & Ha & H).

Lemma bind_Err {A B : Type} (c : result A) (k : A -> result B) (e : error) :
  bind c k = Err e -> c = Err e \/ exists a, c = Ok a /\ k a = Err e.
Proof.
  destruct c as [a|e']; simpl; intros H; [right; exists a; auto | left; congruence].
Qed.

Lemma byte_eqb_spec (a b : byte) : reflect (a = b) (Byte.eqb a b).
Proof.
  destruct (Byte.eqb a b) eqn:E; constructor.
  - apply Byte.byte_dec_bl. exact E.
  - apply Byte.eqb_false. exact E.
Qed.

(** ** Readers *)

Lemma check_data_boundary_fits (data : list byte) (start length : nat) :
  start + length <= List.length data ->
  check_data_boundary data start length = Ok tt.
Proof.
  intros H. unfold check_data_boundary.
  destruct (Z.ltb_spec (Z.of_nat (List.length data) - Z.of_nat start)
              (Z.of_nat length)); [lia | reflexivity].
Qed.

Lemma check_data_boundary_exceeds (data : list byte) (start length : nat) :
  List.length data < start + length ->
  check_data_boundary data start length = Err OutOfBounds.
Proof.
  intros H. unfold check_data_boundary.
  destruct (Z.ltb_spec (Z.of_nat (List.length data) - Z.of_nat start)
              (Z.of_nat length)); [reflexivity | lia].
Qed.

Lemma check_data_boundary_cases (data : list byte) (start length : nat) :
  (start + length <= List.length data /\
   check_data_boundary data start length = Ok tt) \/
  (List.length data < start + length /\
   check_data_boundary data start length = Err OutOfBounds).
Proof.
  destruct (le_lt_dec (start + length) (List.length data)) as [H|H].
  - left. split; [exact H | apply check_data_boundary_fits; exact H].
  - right. split; [exact H | apply check_data_boundary_exceeds; exact H].
Qed.

Lemma get_in_range (data : list byte) (k : nat) :
  k < List.length data -> exists b, nth_error data k = Some b /\ get data k = Ok b.
Proof.
  intros H. unfold get.
  destruct (nth_error data k) as [b|] eqn:E.
  - exists b. auto.
  - apply nth_error_None in E. lia.
Qed.

(** A loop that reads [data[k]] for each index of a range inside the stream
    and updates an accumulator raises nothing: it folds [f] over the bytes of
    the range. *)
Lemma for_range_get {A : Type} (data : list byte) (f : A -> byte -> A)
  (length start : nat) (acc : A) :
  start + length <= List.length data ->
  for_range (seq start length) (fun acc k => b <- get data k ;; Ok (f acc b)) acc
  = Ok (fold_left f (firstn length (skipn start data)) acc).
Proof.
  revert start acc. induction length as [|n IH]; intros start acc H; simpl.
  - reflexivity.
  - destruct (get_in_range data start) as (b & Hn & Hg); [lia|].
    rewrite Hg. simpl.
    rewrite IH by lia.
    assert (Hs : skipn start data = b :: skipn (S start) data).
    { clear - Hn. revert data Hn. induction start as [|s IHs]; intros [|x l] Hn;
        simpl in *; try discriminate.
      - injection Hn as ->. reflexivity.
      - apply IHs. exact Hn. }
    rewrite Hs. reflexivity.
Qed.

Lemma slice_length (data : list byte) (start length : nat) :
  start + length <= List.length data ->
  List.length (slice data start length) = length.
Proof.
  intros H. unfold slice. rewrite length_firstn, length_skipn. lia.
Qed.

Lemma extract_length_cases (data : list byte) (start : nat) :
  (start + 2 <= List.length data /\
   exists n, extract_length data start = Ok (n, start + 2)) \/
  (List.length data < start + 2 /\
   extract_length data start = Err OutOfBounds).
Proof.
  unfold extract_length.
  destruct (check_data_boundary_cases data start 2) as [[H E]|[H E]]; rewrite E.
  - left. split; [exact H|]. simpl.
    destruct (get_in_range data start) as (hi & _ & ->); [lia|].
    destruct (get_in_range data (start + 1)) as (lo & _ & ->); [lia|].
    simpl. eexists. reflexivity.
  - right. split; [exact H | reflexivity].
Qed.

Lemma extract_string_value_cases (data : list byte) (start length : nat) :
  (start + length <= List.length data /\
   extract_string_value data start length =
   Ok (PStr (fold_left (fun value b => (value ++ chr b)%string)
               (slice data start length) ""),
       start + length)) \/
  (List.length data < start + length /\
   extract_string_value data start length = Err OutOfBounds).
Proof.
  unfold extract_string_value.
  destruct (check_data_boundary_cases data start length) as [[H E]|[H E]]; rewrite E.
  - left. split; [exact H|]. simpl.
    rewrite (for_range_get data (fun value b => (value ++ chr b)%string)) by exact H.
    reflexivity.
  - right. split; [exact H | reflexivity].
Qed.

Lemma extract_bytes_value_cases (data : list byte) (start length : nat) :
  (start + length <= List.length data /\
   extract_bytes_value data start length =
   Ok (PList (fold_left (fun value b => value ++ [PInt (Byte.to_N b)])
                (slice data start length) []),
       start + length)) \/
  (List.length data < start + length /\
   extract_bytes_value data start length = Err OutOfBounds).
Proof.
  unfold extract_bytes_value.
  destruct (check_data_boundary_cases data start length) as [[H E]|[H E]]; rewrite E.
  - left. split; [exact H|]. simpl.
    rewrite (for_range_get data (fun value b => value ++ [PInt (Byte.to_N b)]))
      by exact H.
    reflexivity.
  - right. split; [exact H | reflexivity].
Qed.

Lemma extract_integer_value_wrong_length (data : list byte) (start length : nat) :
  length <> 4 -> extract_integer_value data start length = Err InvalidFixedLength.
Proof.
  intros H. unfold extract_integer_value.
  destruct (Nat.eqb_spec length 4); [contradiction | reflexivity].
Qed.

Lemma extract_integer_value_4 (data : list byte) (start : nat) :
  (start + 4 <= List.length data /\
   extract_integer_value data start 4 =
   Ok (PInt (fold_left (fun value b => (value * 256 + Byte.to_N b)%N)
               (slice data start 4) 0%N),
       start + 4)) \/
  (List.length data < start + 4 /\
   extract_integer_value data start 4 = Err OutOfBounds).
Proof.
  unfold extract_integer_value. cbn [Nat.eqb negb].
  destruct (check_data_boundary_cases data start 4) as [[H E]|[H E]]; rewrite E.
  - left. split; [exact H|]. cbn [bind].
    rewrite (for_range_get data (fun value b => (value * 256 + Byte.to_N b)%N))
      by exact H.
    reflexivity.
  - right. split; [exact H | reflexivity].
Qed.

Lemma extract_byte_value_wrong_length (data : list byte) (start length : nat) :
  length <> 1 -> extract_byte_value data start length = Err InvalidFixedLength.
Proof.
  intros H. unfold extract_byte_value.
  destruct (Nat.eqb_spec length 1); [contradiction | reflexivity].
Qed.

Lemma extract_byte_value_1 (data : list byte) (start : nat) :
  (start + 1 <= List.length data /\
   exists b, nth_error data start = Some b /\
     extract_byte_value data start 1 = Ok (PInt (Byte.to_N b), start + 1)) \/
  (List.length data < start + 1 /\
   extract_byte_value data start 1 = Err OutOfBounds).
Proof.
  unfold extract_byte_value. cbn [Nat.eqb negb].
  destruct (check_data_boundary_cases data start 1) as [[H E]|[H E]]; rewrite E.
  - left. split; [exact H|]. cbn [bind].
    destruct (get_in_range data start) as (b & Hn & ->); [lia|].
    exists b. split; [exact Hn | reflexivity].
  - right. split; [exact H | reflexivity].
Qed.

Lemma extract_boolean_value_wrong_length (data : list byte) (start length : nat) :
  length <> 1 -> extract_boolean_value data start length = Err InvalidFixedLength.
Proof.
  intros H. unfold extract_boolean_value.
  destruct (Nat.eqb_spec length 1); [contradiction | reflexivity].
Qed.

Lemma extract_boolean_value_1 (data : list byte) (start : nat) :
  (start + 1 <= List.length data /\
   exists b, nth_error data start = Some b /\
     extract_boolean_value data start 1 =
     Ok (PBool (negb (Byte.eqb b x00)), start + 1)) \/
  (List.length data < start + 1 /\
   extract_boolean_value data start 1 = Err OutOfBounds).
Proof.
  unfold extract_boolean_value. cbn [Nat.eqb negb].
  destruct (check_data_boundary_cases data start 1) as [[H E]|[H E]]; rewrite E.
  - left. split; [exact H|]. cbn [bind].
    destruct (get_in_range data start) as (b & Hn & ->); [lia|].
    exists b. split; [exact Hn | reflexivity].
  - right. split; [exact H | reflexivity].
Qed.

Lemma extract_resolution_value_wrong_length (data : list byte) (start length : nat) :
  length <> 9 -> extract_resolution_value data start length = Err InvalidFixedLength.
Proof.
  intros H. unfold extract_resolution_value.
  destruct (Nat.eqb_spec length 9); [contradiction | reflexivity].
Qed.

Lemma extract_resolution_value_9 (data : list byte) (start : nat) :
  (start + 9 <= List.length data /\
   exists v, extract_resolution_value data start 9 = Ok (PList v, start + 9)) \/
  (List.length data < start + 9 /\
   extract_resolution_value data start 9 = Err OutOfBounds).
Proof.
  unfold extract_resolution_value. cbn [Nat.eqb negb].
  destruct (check_data_boundary_cases data start 9) as [[H E]|[H E]]; rewrite E.
  - left. split; [exact H|]. cbn [bind].
    destruct (extract_integer_value_4 data start) as [[_ ->]|[? _]]; [|lia].
    cbn [bind].
    destruct (extract_integer_value_4 data (start + 4)) as [[_ ->]|[? _]]; [|lia].
    cbn [bind].
    destruct (extract_byte_value_1 data (start + 4 + 4)) as [[_ (b & _ & ->)]|[? _]];
      [|lia].
    cbn [bind]. eexists. f_equal. f_equal. lia.
  - right. split; [exact H | reflexivity].
Qed.

Lemma extract_range_value_wrong_length (data : list byte) (start length : nat) :
  length <> 8 -> extract_range_value data start length = Err InvalidFixedLength.
Proof.
  intros H. unfold extract_range_value.
  destruct (Nat.eqb_spec length 8); [contradiction | reflexivity].
Qed.

Lemma extract_range_value_8 (data : list byte) (start : nat) :
  (start + 8 <= List.length data /\
   exists v, extract_range_value data start 8 = Ok (PList v, start + 8)) \/
  (List.length data < start + 8 /\
   extract_range_value data start 8 = Err OutOfBounds).
Proof.
  unfold extract_range_value. cbn [Nat.eqb negb].
  destruct (check_data_boundary_cases data start 8) as [[H E]|[H E]]; rewrite E.
  - left. split; [exact H|]. cbn [bind].
    destruct (extract_integer_value_4 data start) as [[_ ->]|[? _]]; [|lia].
    cbn [bind].
    destruct (extract_integer_value_4 data (start + 4)) as [[_ ->]|[? _]]; [|lia].
    cbn [bind]. eexists. f_equal. f_equal. lia.
  - right. split; [exact H | reflexivity].
Qed.

Lemma extract_string_value_post data start length :
  extractor_post data start length (extract_string_value data start length).
Proof.
  destruct (extract_string_value_cases data start length) as [[H ->]|[H ->]];
    simpl; auto.
Qed.

Lemma extract_bytes_value_post data start length :
  extractor_post data start length (extract_bytes_value data start length).
Proof.
  destruct (extract_bytes_value_cases data start length) as [[H ->]|[H ->]];
    simpl; auto.
Qed.

Lemma extract_integer_value_post data start length :
  extractor_post data start length (extract_integer_value data start length).
Proof.
  destruct (Nat.eq_dec length 4) as [->|Hn].
  - destruct (extract_integer_value_4 data start) as [[H ->]|[H ->]]; simpl; auto.
  - rewrite extract_integer_value_wrong_length by exact Hn. simpl. auto.
Qed.

Lemma extract_boolean_value_post data start length :
  extractor_post data start length (extract_boolean_value data start length).
Proof.
  destruct (Nat.eq_dec length 1) as [->|Hn].
  - destruct (extract_boolean_value_1 data start) as [[H (b & _ & ->)]|[H ->]];
      simpl; auto.
  - rewrite extract_boolean_value_wrong_length by exact Hn. simpl. auto.
Qed.

Lemma extract_resolution_value_post data start length :
  extractor_post data start length (extract_resolution_value data start length).
Proof.
  destruct (Nat.eq_dec length 9) as [->|Hn].
  - destruct (extract_resolution_value_9 data start) as [[H (v & ->)]|[H ->]];
      simpl; auto.
  - rewrite extract_resolution_value_wrong_length by exact Hn. simpl. auto.
Qed.

Lemma extract_range_value_post data start length :
  extractor_post data start length (extract_range_value data start length).
Proof.
  destruct (Nat.eq_dec length 8) as [->|Hn].
  - destruct (extract_range_value_8 data start) as [[H (v & ->)]|[H ->]];
      simpl; auto.
  - rewrite extract_range_value_wrong_length by exact Hn. simpl. auto.
Qed.

Lemma lookup_In {K V : Type} (eqb : K -> K -> bool) (k : K) (d : list (K * V))
  (v : V) :
  lookup eqb k d = Some v -> exists k', In (k', v) d /\ eqb k k' = true.
Proof.
  induction d as [|[k' v'] d IH]; simpl; [discriminate|].
  destruct (eqb k k') eqn:E.
  - intros [= ->]. exists k'. auto.
  - intros H. destruct (IH H) as (k'' & Hin & Hk). exists k''. auto.
Qed.

Lemma function_map_post :
  Forall (fun p => forall data start length,
            extractor_post data start length (snd p data start length))
    function_map.
Proof.
  unfold function_map.
  repeat (apply Forall_cons;
          [ cbn [snd]; intros;
            first [ apply extract_string_value_post
                  | apply extract_integer_value_post
                  | apply extract_boolean_value_post
                  | apply extract_bytes_value_post
                  | apply extract_resolution_value_post
                  | apply extract_range_value_post ] | ]).
  apply Forall_nil.
Qed.

(** Every value type [get_value_type] can return has an extractor. *)
Lemma values_map_in_function_map :
  Forall (fun p => exists f, lookup String.eqb (snd p) function_map = Some f)
    values_map.
Proof.
  unfold values_map.
  repeat (apply Forall_cons; [cbn [snd]; eexists; reflexivity|]).
  apply Forall_nil.
Qed.

Lemma get_value_type_Ok (value_tag : byte) (ty : string) :
  get_value_type value_tag = Ok ty ->
  exists f, lookup String.eqb ty function_map = Some f.
Proof.
  unfold get_value_type.
  destruct (lookup Byte.eqb value_tag values_map) as [name|] eqn:E;
    [|discriminate].
  intros [= <-]. apply lookup_In in E. destruct E as (k' & Hin & _).
  pose proof values_map_in_function_map as HF.
  rewrite Forall_forall in HF. exact (HF _ Hin).
Qed.

Lemma get_value_type_Err (value_tag : byte) (e : error) :
  get_value_type value_tag = Err e -> e = UnsupportedValueTag.
Proof.
  unfold get_value_type.
  destruct (lookup Byte.eqb value_tag values_map); [discriminate|].
  intros [= <-]. reflexivity.
Qed.

(** [extract_value] checks the bounds before it dispatches: past the end of
    the stream it raises [OutOfBounds] whatever the type; within the stream
    the extractor of a mapped type returns [start + length] or rejects a
    wrong fixed length. *)
Lemma extract_value_exceeds data value_type start length :
  List.length data < start + length ->
  extract_value data value_type start length = Err OutOfBounds.
Proof.
  intros H. unfold extract_value.
  rewrite check_data_boundary_exceeds by exact H. reflexivity.
Qed.

Lemma extract_value_fits data value_type start length f :
  lookup String.eqb value_type function_map = Some f ->
  start + length <= List.length data ->
  extract_value data value_type start length = f data start length /\
  ((exists v, f data start length = Ok (v, start + length)) \/
   f data start length = Err InvalidFixedLength).
Proof.
  intros Hf H. unfold extract_value.
  rewrite check_data_boundary_fits by exact H. cbn [bind]. rewrite Hf.
  split; [reflexivity|].
  apply lookup_In in Hf. destruct Hf as (k' & Hin & _).
  pose proof function_map_post as HF. rewrite Forall_forall in HF.
  specialize (HF _ Hin data start length). cbn [snd] in HF.
  destruct (f data start length) as [[v c]|e]; simpl in HF.
  - left. destruct HF as [-> _]. exists v. reflexivity.
  - right. destruct HF as [->|[_ ?]]; [reflexivity | lia].
Qed.

(** ** One pass through the loop body *)

(** Reading an entry either succeeds, with the index moved past the tag, the
    two length fields, the name and the value and still inside the stream,
    or raises one of three errors, the first of them for an unsupported tag
    only. *)
Lemma read_entry_post (data : list byte) (b : byte) (p : nat) :
  match read_entry data b p with
  | Ok e =>
      get_value_type b = Ok (cur_value_type e) /\
      p + 5 <= next_i e /\ next_i e <= List.length data
  | Err e =>
      (e = UnsupportedValueTag /\ get_value_type b = Err UnsupportedValueTag) \/
      e = OutOfBounds \/ e = InvalidFixedLength
  end.
Proof.
  unfold read_entry.
  destruct (get_value_type b) as [ty|e] eqn:Ety; cbn [bind].
  2:{ left. rewrite (get_value_type_Err _ _ Ety). auto. }
  destruct (extract_length_cases data (p + 1)) as [[H1 (nl & ->)]|[H1 ->]];
    cbn [bind]; [|auto].
  destruct (extract_string_value_cases data (p + 1 + 2) nl) as [[H2 ->]|[H2 ->]];
    cbn [bind]; [|auto].
  destruct (extract_length_cases data (p + 1 + 2 + nl)) as [[H3 (vl & ->)]|[H3 ->]];
    cbn [bind]; [|auto].
  destruct (le_lt_dec (p + 1 + 2 + nl + 2 + vl) (List.length data)) as [H4|H4].
  - destruct (get_value_type_Ok _ _ Ety) as (f & Hf).
    destruct (extract_value_fits data ty _ _ f Hf H4) as [-> [(v & ->)| ->]];
      cbn [bind]; [|auto].
    cbn. repeat split; lia.
  - rewrite extract_value_exceeds by exact H4. cbn [bind]. auto.
Qed.

Lemma read_entry_Ok (data : list byte) (b : byte) (p : nat) (e : entry) :
  read_entry data b p = Ok e ->
  get_value_type b = Ok (cur_value_type e) /\
  p + 5 <= next_i e /\ next_i e <= List.length data.
Proof.
  intros H. pose proof (read_entry_post data b p) as P. rewrite H in P. exact P.
Qed.

Lemma read_entry_Err (data : list byte) (b : byte) (p : nat) (e : error) :
  read_entry data b p = Err e ->
  e = UnsupportedValueTag \/ e = OutOfBounds \/ e = InvalidFixedLength.
Proof.
  intros H. pose proof (read_entry_post data b p) as P. rewrite H in P. tauto.
Qed.

(** With a supported tag, only the readers and the extractor can raise. *)
Lemma read_entry_Err_supported (data : list byte) (b : byte) (ty : string)
  (p : nat) (e : error) :
  get_value_type b = Ok ty ->
  read_entry data b p = Err e ->
  e = OutOfBounds \/ e = InvalidFixedLength.
Proof.
  intros Hty H. pose proof (read_entry_post data b p) as P. rewrite H in P.
  destruct P as [[_ P]|P]; [congruence | exact P].
Qed.

Lemma getitem_Err attributes group e :
  getitem attributes group = Err e -> e = KeyError.
Proof.
  unfold getitem. destruct group as [g|]; [|congruence].
  destruct (dict_get attributes g); congruence.
Qed.

Lemma getitem_Ok attributes group g l :
  getitem attributes group = Ok (g, l) ->
  group = Some g /\ dict_get attributes g = Some l.
Proof.
  unfold getitem. destruct group as [g'|]; [|discriminate].
  destruct (dict_get attributes g') eqn:E; [|discriminate].
  intros [= -> ->]. auto.
Qed.

Lemma add_attribute_Err attributes group ty n v e :
  add_attribute attributes group ty n v = Err e -> e = KeyError.
Proof.
  unfold add_attribute. intros H.
  destruct (bind_Err _ _ _ H) as [H1|([g l] & _ & H1)];
    [eapply getitem_Err; exact H1 | discriminate].
Qed.

Lemma extend_attribute_values_Err attributes group v e :
  extend_attribute_values attributes group v = Err e ->
  e = KeyError \/ e = AttributeIndexError.
Proof.
  unfold extend_attribute_values. intros H.
  destruct (bind_Err _ _ _ H) as [H1|([g l] & _ & H1)].
  - left. eapply getitem_Err. exact H1.
  - right. destruct (rev l); congruence.
Qed.

Lemma store_entry_Ok st e st' :
  store_entry st e = Ok st' ->
  i st' = next_i e /\
  current_attributes_group st' = current_attributes_group st /\
  prev_value_type st' = Some (cur_value_type e).
Proof.
  unfold store_entry. intros H.
  destruct (bind_Ok _ _ _ H) as (a & _ & [= <-]). cbn. auto.
Qed.

Lemma store_entry_Err st e err :
  store_entry st e = Err err -> err = KeyError \/ err = AttributeIndexError.
Proof.
  unfold store_entry. intros H.
  destruct (bind_Err _ _ _ H) as [H1|(a & _ & H1)]; [|discriminate].
  destruct (same_type _ _ && _).
  - eapply extend_attribute_values_Err. exact H1.
  - left. eapply add_attribute_Err. exact H1.
Qed.

(** A delimiter other than the terminator has a name, and the name is that
    of a group. *)
Lemma get_delimiter_name_group (b : byte) :
  is_ipp_delimiter b = true -> Byte.eqb b x03 = false ->
  exists name, get_delimiter_name b = Ok name /\
    In name ["operationAttributes"; "jobAttributes"; "printerAttributes"].
Proof.
  destruct b; cbn; intros H1 H2; try discriminate;
    eexists; (split; [reflexivity | cbn; auto]).
Qed.

(** The three ways out of the loop body, entered with [i] in range. *)
Lemma loop_body_Continue data st st' :
  loop_body data st = Continue st' ->
  i st < i st' /\ i st' <= List.length data.
Proof.
  unfold loop_body, get.
  destruct (nth_error data (i st)) as [b|] eqn:Eb; [|discriminate].
  assert (Hlt : i st < List.length data).
  { apply nth_error_Some. congruence. }
  destruct (is_ipp_delimiter b) eqn:Ed.
  - destruct (Byte.eqb b x03) eqn:E3; [discriminate|].
    destruct (get_delimiter_name_group b Ed E3) as (name & -> & _).
    cbn. intros [= <-]. cbn. lia.
  - unfold value_entry.
    destruct (read_entry data b (i st)) as [e|err] eqn:Er; cbn; [|discriminate].
    destruct (store_entry st e) as [st1|err] eqn:Es; cbn; [|discriminate].
    intros [= <-].
    apply read_entry_Ok in Er. apply store_entry_Ok in Es.
    destruct Es as (-> & _). lia.
Qed.

Lemma loop_body_Break data st st' :
  loop_body data st = Break st' <->
  st' = st /\ nth_error data (i st) = Some x03.
Proof.
  unfold loop_body, get.
  destruct (nth_error data (i st)) as [b|] eqn:Eb.
  - destruct (is_ipp_delimiter b) eqn:Ed.
    + destruct (byte_eqb_spec b x03) as [->|Hne].
      * split; [intros [= <-]; auto | intros [-> _]; reflexivity].
      * destruct (get_delimiter_name b); cbn;
          (split; [discriminate | intros [_ [= E]]; congruence]).
    + split.
      * destruct (value_entry data b st); discriminate.
      * intros [_ [= ->]]. discriminate.
  - split; [discriminate | intros [_ ?]; discriminate].
Qed.

Lemma loop_body_Raise data st e :
  i st < List.length data ->
  loop_body data st = Raise e ->
  In e [UnsupportedValueTag; OutOfBounds; InvalidFixedLength; KeyError;
        AttributeIndexError].
Proof.
  intros Hlt. unfold loop_body.
  destruct (get_in_range data (i st) Hlt) as (b & _ & ->).
  destruct (is_ipp_delimiter b) eqn:Ed.
  - destruct (Byte.eqb b x03) eqn:E3; [discriminate|].
    destruct (get_delimiter_name_group b Ed E3) as (name & -> & _).
    discriminate.
  - unfold value_entry.
    destruct (read_entry data b (i st)) as [en|err] eqn:Er; cbn.
    + destruct (store_entry st en) as [st1|err] eqn:Es; cbn; [discriminate|].
      intros [= <-]. apply store_entry_Err in Es. cbn. intuition.
    + intros [= <-]. apply read_entry_Err in Er. cbn. intuition.
Qed.

(** ** The loop *)

(** The loop ends within [len(ascii_values) - i + 1] tests of its condition,
    since every full pass moves [i] forward. *)
Lemma while_loop_total (data : list byte) (fuel : nat) (st : state) :
  List.length data - i st < fuel ->
  exists r, while_loop fuel data st = Some r.
Proof.
  revert st. induction fuel as [|fuel IH]; intros st H; [lia|].
  cbn [while_loop].
  destruct (Nat.ltb_spec (i st) (List.length data)) as [Hlt|Hge].
  - destruct (loop_body data st) as [st'|st'|e] eqn:Eb.
    + apply loop_body_Continue in Eb. apply IH. lia.
    + eexists. reflexivity.
    + eexists. reflexivity.
  - eexists. reflexivity.
Qed.

(** More fuel does not change the result of a loop that ended. *)
Lemma while_loop_more_fuel (data : list byte) (fuel fuel' : nat) (st : state)
  (r : result state) :
  while_loop fuel data st = Some r -> fuel <= fuel' ->
  while_loop fuel' data st = Some r.
Proof.
  revert fuel' st. induction fuel as [|fuel IH]; intros fuel' st H Hle;
    [discriminate|].
  destruct fuel' as [|fuel']; [lia|].
  cbn [while_loop] in *.
  destruct (i st <? List.length data)%nat; [|exact H].
  destruct (loop_body data st) as [st'|st'|e]; [|exact H|exact H].
  apply IH; [exact H | lia].
Qed.

Lemma run_steps_while_loop (data : list byte) (n fuel : nat) (st st' : state) :
  run_steps n data st = Some st' ->
  while_loop (n + fuel) data st = while_loop fuel data st'.
Proof.
  revert st. induction n as [|n IH]; intros st H;
    cbn [run_steps while_loop Nat.add] in *.
  - injection H as ->. reflexivity.
  - destruct (i st <? List.length data)%nat; [|discriminate].
    destruct (loop_body data st) as [st1|st1|e]; try discriminate.
    apply IH. exact H.
Qed.

Lemma run_steps_app (data : list byte) (n m : nat) (st st1 st2 : state) :
  run_steps n data st = Some st1 -> run_steps m data st1 = Some st2 ->
  run_steps (n + m) data st = Some st2.
Proof.
  revert st. induction n as [|n IH]; intros st H1 H2;
    cbn [run_steps Nat.add] in *.
  - injection H1 as ->. exact H2.
  - destruct (i st <? List.length data)%nat; [|discriminate].
    destruct (loop_body data st) as [st'|st'|e]; try discriminate.
    eapply IH; eassumption.
Qed.

(** A property of the loop variables that holds before the loop and that
    every full pass keeps holds at the top of every pass. *)
Lemma run_steps_invariant (data : list byte) (P : state -> Prop) :
  (forall st st', P st -> i st < List.length data ->
                  loop_body data st = Continue st' -> P st') ->
  forall n st st', P st -> run_steps n data st = Some st' -> P st'.
Proof.
  intros Hstep. induction n as [|n IH]; intros st st' HP H;
    cbn [run_steps] in H.
  - injection H as <-. exact HP.
  - destruct (Nat.ltb_spec (i st) (List.length data)) as [Hlt|Hge];
      [|discriminate].
    destruct (loop_body data st) as [st1|st1|e] eqn:Eb; try discriminate.
    eapply IH; [|exact H]. eapply Hstep; eassumption.
Qed.

(** The loop ends without an exception in a state it reached by full
    passes, either by its condition or by [break] on the terminator. *)
Lemma while_loop_Ok_inv (data : list byte) (fuel : nat) (st st' : state) :
  while_loop fuel data st = Some (Ok st') ->
  exists n, run_steps n data st = Some st' /\
    (List.length data <= i st' \/
     (i st' < List.length data /\ nth_error data (i st') = Some x03)).
Proof.
  revert st. induction fuel as [|fuel IH]; intros st H; [discriminate|].
  cbn [while_loop] in H.
  destruct (Nat.ltb_spec (i st) (List.length data)) as [Hlt|Hge].
  - destruct (loop_body data st) as [st1|st1|e] eqn:Eb.
    + destruct (IH _ H) as (n & Hn & Hend).
      exists (S n). split; [|exact Hend].
      cbn [run_steps]. destruct (Nat.ltb_spec (i st) (List.length data)); [|lia].
      rewrite Eb. exact Hn.
    + injection H as <-. apply loop_body_Break in Eb. destruct Eb as [-> Hb].
      exists 0. split; [reflexivity|]. right. auto.
    + discriminate.
  - injection H as <-. exists 0. split; [reflexivity|]. left. exact Hge.
Qed.

(** The loop ends with an exception raised by the body in a state it reached
    by full passes. *)
Lemma while_loop_Err_inv (data : list byte) (fuel : nat) (st : state) (e : error) :
  while_loop fuel data st = Some (Err e) ->
  exists n st', run_steps n data st = Some st' /\
    i st' < List.length data /\ loop_body data st' = Raise e.
Proof.
  revert st. induction fuel as [|fuel IH]; intros st H; [discriminate|].
  cbn [while_loop] in H.
  destruct (Nat.ltb_spec (i st) (List.length data)) as [Hlt|Hge]; [|discriminate].
  destruct (loop_body data st) as [st1|st1|e'] eqn:Eb.
  - destruct (IH _ H) as (n & st' & Hn & Hend).
    exists (S n), st'. split; [|exact Hend].
    cbn [run_steps]. destruct (Nat.ltb_spec (i st) (List.length data)); [|lia].
    rewrite Eb. exact Hn.
  - discriminate.
  - injection H as <-. exists 0, st. split; [reflexivity|]. auto.
Qed.

(** ** [main] *)

(** [main] returns or raises: its loop never runs out of fuel. *)
Lemma main_total (data : list byte) : exists r, main data = Some r.
Proof.
  unfold main.
  destruct (while_loop_total data (S (List.length data)) initial_state) as (r & ->).
  - cbn. lia.
  - eexists. reflexivity.
Qed.

(** [main] is the loop, with whatever fuel lets it end, then [after_loop]. *)
Lemma main_unfold (data : list byte) (fuel : nat) (r : result state) :
  while_loop fuel data initial_state = Some r ->
  main data = Some (st <- r ;; after_loop data st).
Proof.
  intros H. unfold main.
  destruct (while_loop_total data (S (List.length data)) initial_state)
    as (r' & Hr'); [cbn; lia|].
  rewrite Hr'.
  pose proof (while_loop_more_fuel _ _ (fuel + S (List.length data)) _ _ H
                ltac:(lia)) as H1.
  pose proof (while_loop_more_fuel _ _ (fuel + S (List.length data)) _ _ Hr'
                ltac:(lia)) as H2.
  congruence.
Qed.

(** What [main] does from a state its loop reaches. *)
Lemma main_from (data : list byte) (n : nat) (st : state) (r : result state) :
  run_steps n data initial_state = Some st ->
  while_loop 1 data st = Some r ->
  main data = Some (st' <- r ;; after_loop data st').
Proof.
  intros Hn Hr. apply (main_unfold data (n + 1)).
  rewrite (run_steps_while_loop _ _ _ _ _ Hn). exact Hr.
Qed.

Lemma main_raises (data : list byte) (n : nat) (st : state) (e : error) :
  run_steps n data initial_state = Some st ->
  i st < List.length data ->
  loop_body data st = Raise e ->
  main data = Some (Err e).
Proof.
  intros Hn Hlt Hb.
  apply (main_from data n st (Err e) Hn).
  cbn [while_loop]. destruct (Nat.ltb_spec (i st) (List.length data)); [|lia].
  rewrite Hb. reflexivity.
Qed.

Lemma main_terminator (data : list byte) (n : nat) (st : state) :
  run_steps n data initial_state = Some st ->
  nth_error data (i st) = Some x03 ->
  main data = Some (Ok (ipp_attributes st)).
Proof.
  intros Hn Hb.
  assert (Hlt : i st < List.length data) by (apply nth_error_Some; congruence).
  rewrite (main_from data n st (Ok st) Hn).
  - cbn [bind]. unfold after_loop.
    destruct (Nat.leb_spec (List.length data) (i st)); [lia | reflexivity].
  - cbn [while_loop]. destruct (Nat.ltb_spec (i st) (List.length data)); [|lia].
    assert (Eb : loop_body data st = Break st) by (apply loop_body_Break; auto).
    rewrite Eb. reflexivity.
Qed.

Lemma main_exhausted (data : list byte) (n : nat) (st : state) :
  run_steps n data initial_state = Some st ->
  List.length data <= i st ->
  main data = Some (Err UnterminatedMessage).
Proof.
  intros Hn Hge.
  rewrite (main_from data n st (Ok st) Hn).
  - cbn [bind]. unfold after_loop.
    destruct (Nat.leb_spec (List.length data) (i st)); [reflexivity | lia].
  - cbn [while_loop]. destruct (Nat.ltb_spec (i st) (List.length data)); [lia|].
    reflexivity.
Qed.

(** The three ways [main] ends, read back from its result. *)
Lemma main_Ok_inv (data : list byte) (D : document) :
  main data = Some (Ok D) ->
  exists n st, run_steps n data initial_state = Some st /\
    nth_error data (i st) = Some x03 /\ ipp_attributes st = D.
Proof.
  unfold main.
  destruct (while_loop _ data initial_state) as [[st|e]|] eqn:E; cbn;
    try discriminate.
  unfold after_loop.
  destruct (Nat.leb_spec (List.length data) (i st)) as [Hge|Hlt]; [discriminate|].
  intros [= <-].
  destruct (while_loop_Ok_inv _ _ _ _ E) as (n & Hn & [Hend|[_ Hb]]); [lia|].
  exists n, st. auto.
Qed.

Lemma main_Err_inv (data : list byte) (e : error) :
  main data = Some (Err e) ->
  (e = UnterminatedMessage /\
   exists n st, run_steps n data initial_state = Some st /\
     List.length data <= i st) \/
  (exists n st, run_steps n data initial_state = Some st /\
     i st < List.length data /\ loop_body data st = Raise e).
Proof.
  unfold main.
  destruct (while_loop _ data initial_state) as [[st|e']|] eqn:E; cbn;
    try discriminate.
  - unfold after_loop.
    destruct (Nat.leb_spec (List.length data) (i st)) as [Hge|Hlt]; [|discriminate].
    intros [= <-]. left. split; [reflexivity|].
    destruct (while_loop_Ok_inv _ _ _ _ E) as (n & Hn & _).
    exists n, st. auto.
  - intros [= <-]. right. eapply while_loop_Err_inv. exact E.
Qed.

(** ** Value tags and the missing group *)

Lemma value_tag_not_delimiter (b : byte) (ty : string) :
  get_value_type b = Ok ty -> is_ipp_delimiter b = false.
Proof.
  destruct b; cbn; intros H; first [reflexivity | discriminate].
Qed.

Lemma store_entry_no_group (e : entry) :
  store_entry initial_state e = Err KeyError.
Proof. reflexivity. Qed.

(** ** Extending the stream *)

(** Reads that succeed on a stream succeed with the same result on every
    extension of the stream. *)
Lemma get_app (t s : list byte) (k : nat) (b : byte) :
  get t k = Ok b -> get (t ++ s) k = Ok b.
Proof.
  unfold get. destruct (nth_error t k) as [b'|] eqn:E; [|discriminate].
  intros [= <-]. rewrite nth_error_app1 by (apply nth_error_Some; congruence).
  rewrite E. reflexivity.
Qed.

Lemma check_data_boundary_app (t s : list byte) (start length : nat) (u : unit) :
  check_data_boundary t start length = Ok u ->
  check_data_boundary (t ++ s) start length = Ok u.
Proof.
  destruct u.
  destruct (check_data_boundary_cases t start length) as [[H E]|[H E]];
    rewrite E; [|discriminate].
  intros _. apply check_data_boundary_fits. rewrite length_app. lia.
Qed.

Lemma for_range_app {A : Type} (t s : list byte) (f : A -> byte -> A)
  (idx : list nat) (acc r : A) :
  for_range idx (fun acc k => b <- get t k ;; Ok (f acc b)) acc = Ok r ->
  for_range idx (fun acc k => b <- get (t ++ s) k ;; Ok (f acc b)) acc = Ok r.
Proof.
  revert acc. induction idx as [|k idx IH]; intros acc H; cbn in *; [exact H|].
  destruct (get t k) as [b|e] eqn:E; [|discriminate].
  rewrite (get_app t s k b E). cbn in *. apply IH. exact H.
Qed.

Lemma extract_string_value_stable : stable extract_string_value.
Proof.
  intros t s start length r H. unfold extract_string_value in *.
  bind_inv H. bind_inv H.
  rewrite (check_data_boundary_app _ s _ _ _ Ha). cbn [bind].
  rewrite (for_range_app t s (fun value b => (value ++ chr b)%string) _ _ _ Ha0).
  exact H.
Qed.

Lemma extract_bytes_value_stable : stable extract_bytes_value.
Proof.
  intros t s start length r H. unfold extract_bytes_value in *.
  bind_inv H. bind_inv H.
  rewrite (check_data_boundary_app _ s _ _ _ Ha). cbn [bind].
  rewrite (for_range_app t s (fun value b => value ++ [PInt (Byte.to_N b)])
             _ _ _ Ha0).
  exact H.
Qed.

Lemma extract_integer_value_stable : stable extract_integer_value.
Proof.
  intros t s start length r H. unfold extract_integer_value in *.
  destruct (negb (length =? 4)%nat); [discriminate|].
  bind_inv H. bind_inv H.
  rewrite (check_data_boundary_app _ s _ _ _ Ha). cbn [bind].
  rewrite (for_range_app t s (fun value b => (value * 256 + Byte.to_N b)%N)
             _ _ _ Ha0).
  exact H.
Qed.

Lemma extract_byte_value_stable : stable extract_byte_value.
Proof.
  intros t s start length r H. unfold extract_byte_value in *.
  destruct (negb (length =? 1)%nat); [discriminate|].
  bind_inv H. bind_inv H.
  rewrite (check_data_boundary_app _ s _ _ _ Ha). cbn [bind].
  rewrite (get_app _ s _ _ Ha0). exact H.
Qed.

Lemma extract_boolean_value_stable : stable extract_boolean_value.
Proof.
  intros t s start length r H. unfold extract_boolean_value in *.
  destruct (negb (length =? 1)%nat); [discriminate|].
  bind_inv H. bind_inv H.
  rewrite (check_data_boundary_app _ s _ _ _ Ha). cbn [bind].
  rewrite (get_app _ s _ _ Ha0). exact H.
Qed.

Lemma extract_resolution_value_stable : stable extract_resolution_value.
Proof.
  intros t s start length r H. unfold extract_resolution_value in *.
  destruct (negb (length =? 9)%nat); [discriminate|].
  bind_inv H. bind_inv H. destruct a0 as [x_res c1].
  bind_inv H. destruct a0 as [y_res c2].
  bind_inv H. destruct a0 as [units c3].
  rewrite (check_data_boundary_app _ s _ _ _ Ha). cbn [bind].
  rewrite (extract_integer_value_stable _ s _ _ _ Ha0). cbn [bind].
  rewrite (extract_integer_value_stable _ s _ _ _ Ha1). cbn [bind].
  rewrite (extract_byte_value_stable _ s _ _ _ Ha2). exact H.
Qed.

Lemma extract_range_value_stable : stable extract_range_value.
Proof.
  intros t s start length r H. unfold extract_range_value in *.
  destruct (negb (length =? 8)%nat); [discriminate|].
  bind_inv H. bind_inv H. destruct a0 as [lower c1].
  bind_inv H. destruct a0 as [upper c2].
  rewrite (check_data_boundary_app _ s _ _ _ Ha). cbn [bind].
  rewrite (extract_integer_value_stable _ s _ _ _ Ha0). cbn [bind].
  rewrite (extract_integer_value_stable _ s _ _ _ Ha1). exact H.
Qed.

Lemma function_map_stable :
  Forall (fun p => stable (snd p)) function_map.
Proof.
  unfold function_map.
  repeat (apply Forall_cons;
          [ cbn [snd];
            first [ exact extract_string_value_stable
                  | exact extract_integer_value_stable
                  | exact extract_boolean_value_stable
                  | exact extract_bytes_value_stable
                  | exact extract_resolution_value_stable
                  | exact extract_range_value_stable ] | ]).
  apply Forall_nil.
Qed.

Lemma extract_value_app (t s : list byte) (value_type : string)
  (start length : nat) (r : pyvalue * nat) :
  extract_value t value_type start length = Ok r ->
  extract_value (t ++ s) value_type start length = Ok r.
Proof.
  unfold extract_value. intros H. bind_inv H.
  rewrite (check_data_boundary_app _ s _ _ _ Ha). cbn [bind].
  destruct (lookup String.eqb value_type function_map) as [f|] eqn:Ef;
    [|discriminate].
  apply lookup_In in Ef. destruct Ef as (k' & Hin & _).
  pose proof function_map_stable as HF. rewrite Forall_forall in HF.
  exact (HF _ Hin t s start length r H).
Qed.

Lemma extract_length_app (t s : list byte) (start : nat) (r : nat * nat) :
  extract_length t start = Ok r -> extract_length (t ++ s) start = Ok r.
Proof.
  unfold extract_length. intros H. bind_inv H. bind_inv H. bind_inv H.
  rewrite (check_data_boundary_app _ s _ _ _ Ha). cbn [bind].
  rewrite (get_app _ s _ _ Ha0). cbn [bind].
  rewrite (get_app _ s _ _ Ha1). exact H.
Qed.

Lemma read_entry_app (t s : list byte) (b : byte) (p : nat) (e : entry) :
  read_entry t b p = Ok e -> read_entry (t ++ s) b p = Ok e.
Proof.
  unfold read_entry. intros H.
  bind_inv H. rewrite Ha. cbn [bind].
  bind_inv H. destruct a0 as [nl c1].
  rewrite (extract_length_app _ s _ _ Ha0). cbn [bind].
  bind_inv H. destruct a0 as [nm c2].
  rewrite (extract_string_value_stable _ s _ _ _ Ha1). cbn [bind].
  bind_inv H. destruct a0 as [vl c3].
  rewrite (extract_length_app _ s _ _ Ha2). cbn [bind].
  bind_inv H. destruct a0 as [v c4].
  rewrite (extract_value_app _ s _ _ _ _ Ha3). cbn [bind].
  exact H.
Qed.

Lemma loop_body_app (t s : list byte) (st st' : state) :
  loop_body t st = Continue st' -> loop_body (t ++ s) st = Continue st'.
Proof.
  unfold loop_body.
  destruct (get t (i st)) as [b|e] eqn:Eb; [|discriminate].
  rewrite (get_app t s _ _ Eb).
  destruct (is_ipp_delimiter b); [auto|].
  unfold value_entry.
  destruct (read_entry t b (i st)) as [en|err] eqn:Er; [|discriminate].
  rewrite (read_entry_app t s _ _ _ Er). auto.
Qed.

Lemma run_steps_extend (t s : list byte) (n : nat) (st st' : state) :
  run_steps n t st = Some st' -> run_steps n (t ++ s) st = Some st'.
Proof.
  revert st. induction n as [|n IH]; intros st H; cbn [run_steps] in *;
    [exact H|].
  destruct (Nat.ltb_spec (i st) (List.length t)) as [Hlt|Hge]; [|discriminate].
  destruct (Nat.ltb_spec (i st) (List.length (t ++ s))) as [_|Hge];
    [|rewrite length_app in Hge; lia].
  destruct (loop_body t st) as [st1|st1|e] eqn:Eb; try discriminate.
  rewrite (loop_body_app t s _ _ Eb). apply IH. exact H.
Qed.

(** ** The cursor *)

Lemma extract_byte_value_post data start length :
  extractor_post data start length (extract_byte_value data start length).
Proof.
  destruct (Nat.eq_dec length 1) as [->|Hn].
  - destruct (extract_byte_value_1 data start) as [[H (b & _ & ->)]|[H ->]];
      simpl; auto.
  - rewrite extract_byte_value_wrong_length by exact Hn. simpl. auto.
Qed.

Lemma extractors_post :
  Forall (fun f : extractor => forall data start length,
            extractor_post data start length (f data start length))
    extractors.
Proof.
  unfold extractors.
  repeat (apply Forall_cons;
          [ intros;
            first [ apply extract_string_value_post
                  | apply extract_byte_value_post
                  | apply extract_integer_value_post
                  | apply extract_boolean_value_post
                  | apply extract_bytes_value_post
                  | apply extract_resolution_value_post
                  | apply extract_range_value_post ] | ]).
  apply Forall_nil.
Qed.

Lemma extract_value_Ok data value_type start length v c :
  extract_value data value_type start length = Ok (v, c) ->
  c = start + length /\ start + length <= List.length data.
Proof.
  intros H.
  destruct (le_lt_dec (start + length) (List.length data)) as [Hfit|Hex].
  - split; [|exact Hfit].
    unfold extract_value in H. rewrite check_data_boundary_fits in H by exact Hfit.
    cbn [bind] in H.
    destruct (lookup String.eqb value_type function_map) as [f|] eqn:Ef;
      [|discriminate].
    destruct (extract_value_fits data value_type start length f Ef Hfit)
      as [_ [(v' & E)|E]]; rewrite E in H; [|discriminate].
    injection H as _ <-. reflexivity.
  - rewrite extract_value_exceeds in H by exact Hex. discriminate.
Qed.

Lemma reaches_in_bounds (data : list byte) (st : state) :
  reaches data st -> i st <= List.length data.
Proof.
  intros (n & Hn).
  apply (run_steps_invariant data (fun st => i st <= List.length data))
    with (n := n) (st := initial_state); [| cbn; lia | exact Hn].
  intros st1 st2 _ _ Hb. apply loop_body_Continue in Hb. lia.
Qed.

(** ** The keys of the document *)

Lemma dict_get_keys (d : document) (k : string) (l : list attribute) :
  dict_get d k = Some l -> In k (keys d).
Proof.
  unfold dict_get, keys. induction d as [|[k' v] d IH]; cbn; [discriminate|].
  destruct (String.eqb_spec k k') as [->|Hne]; [auto|].
  intros H. right. apply IH. exact H.
Qed.

Lemma dict_set_keys (d : document) (k : string) (v : list attribute) (k' : string) :
  In k' (keys (dict_set d k v)) -> k' = k \/ In k' (keys d).
Proof.
  unfold keys. induction d as [|[k0 v0] d IH]; cbn.
  - intros [<-|[]]. auto.
  - destruct (String.eqb_spec k k0) as [->|Hne]; cbn.
    + intros [<-|H]; auto.
    + intros [<-|H]; [auto|]. destruct (IH H); auto.
Qed.

Lemma add_attribute_keys attributes group ty n v attributes' k :
  add_attribute attributes group ty n v = Ok attributes' ->
  In k (keys attributes') -> In k (keys attributes).
Proof.
  unfold add_attribute. intros H. bind_inv H. destruct a as [g l].
  injection H as <-. apply getitem_Ok in Ha. destruct Ha as [_ Hg].
  intros Hk. apply dict_set_keys in Hk. destruct Hk as [->|Hk]; [|exact Hk].
  eapply dict_get_keys. exact Hg.
Qed.

Lemma extend_attribute_values_keys attributes group v attributes' k :
  extend_attribute_values attributes group v = Ok attributes' ->
  In k (keys attributes') -> In k (keys attributes).
Proof.
  unfold extend_attribute_values. intros H. bind_inv H. destruct a as [g l].
  apply getitem_Ok in Ha. destruct Ha as [_ Hg].
  destruct (rev l) as [|attribute before]; [discriminate|].
  injection H as <-.
  intros Hk. apply dict_set_keys in Hk. destruct Hk as [->|Hk]; [|exact Hk].
  eapply dict_get_keys. exact Hg.
Qed.

Lemma loop_body_keys data st st' :
  keys_are_groups st -> loop_body data st = Continue st' -> keys_are_groups st'.
Proof.
  intros HP. unfold loop_body.
  destruct (get data (i st)) as [b|e]; [|discriminate].
  destruct (is_ipp_delimiter b) eqn:Ed.
  - destruct (Byte.eqb b x03) eqn:E3; [discriminate|].
    destruct (get_delimiter_name_group b Ed E3) as (name & -> & Hname).
    cbn. intros [= <-] k Hk. cbn in Hk.
    apply dict_set_keys in Hk. destruct Hk as [->|Hk]; [exact Hname|].
    apply HP. exact Hk.
  - unfold value_entry.
    destruct (read_entry data b (i st)) as [en|err]; cbn [bind]; [|discriminate].
    unfold store_entry.
    destruct (same_type _ _ && _).
    + destruct (extend_attribute_values _ _ _) as [a|err] eqn:Ea; cbn;
        [|discriminate].
      intros [= <-] k Hk. cbn in Hk. apply HP.
      eapply extend_attribute_values_keys; eassumption.
    + destruct (add_attribute _ _ _ _ _) as [a|err] eqn:Ea; cbn; [|discriminate].
      intros [= <-] k Hk. cbn in Hk. apply HP.
      eapply add_attribute_keys; eassumption.
Qed.

Lemma reaches_keys (data : list byte) (st : state) :
  reaches data st -> keys_are_groups st.
Proof.
  intros (n & Hn).
  apply (run_steps_invariant data keys_are_groups)
    with (n := n) (st := initial_state); [| intros k [] | exact Hn].
  intros st1 st2 HP _ Hb. eapply loop_body_keys; eassumption.
Qed.

(** ** Truncated entries *)

Lemma get_nth (data : list byte) (k : nat) :
  k < List.length data -> get data k = Ok (nth k data x00).
Proof.
  intros H. unfold get. rewrite (nth_error_nth' data x00 H). reflexivity.
Qed.

Lemma extract_length_fits (data : list byte) (start : nat) :
  start + 2 <= List.length data ->
  extract_length data start = Ok (declared_length data start, start + 2).
Proof.
  intros H. unfold extract_length, declared_length.
  rewrite check_data_boundary_fits by exact H. cbn [bind].
  rewrite !get_nth by lia. reflexivity.
Qed.

Lemma extract_length_exceeds (data : list byte) (start : nat) :
  List.length data < start + 2 ->
  extract_length data start = Err OutOfBounds.
Proof.
  intros H. unfold extract_length.
  rewrite check_data_boundary_exceeds by exact H. reflexivity.
Qed.

(** With a supported value tag, reading the entry raises [OutOfBounds]
    exactly when the entry is truncated. *)
Lemma read_entry_truncated (data : list byte) (b : byte) (ty : string) (p : nat) :
  get_value_type b = Ok ty ->
  (entry_truncated data p = true <-> read_entry data b p = Err OutOfBounds).
Proof.
  intros Hty. unfold read_entry, entry_truncated. rewrite Hty. cbn [bind].
  cbv zeta.
  set (nl := declared_length data (p + 1)).
  set (vl := declared_length data (p + 1 + 2 + nl)).
  rewrite !orb_true_iff, !Nat.ltb_lt.
  destruct (le_lt_dec (p + 1 + 2) (List.length data)) as [H1|H1].
  2:{ rewrite extract_length_exceeds by exact H1. cbn [bind]. tauto. }
  rewrite extract_length_fits by exact H1. cbn [bind]. fold nl.
  destruct (extract_string_value_cases data (p + 1 + 2) nl) as [[H2 ->]|[H2 ->]];
    cbn [bind].
  2:{ tauto. }
  destruct (le_lt_dec (p + 1 + 2 + nl + 2) (List.length data)) as [H3|H3].
  2:{ rewrite extract_length_exceeds by exact H3. cbn [bind]. tauto. }
  rewrite extract_length_fits by exact H3. cbn [bind]. fold vl.
  destruct (le_lt_dec (p + 1 + 2 + nl + 2 + vl) (List.length data)) as [H4|H4].
  2:{ rewrite extract_value_exceeds by exact H4. cbn [bind]. tauto. }
  destruct (get_value_type_Ok _ _ Hty) as (f & Hf).
  destruct (extract_value_fits data ty _ _ f Hf H4) as [-> [(v & ->)| ->]];
    cbn [bind]; (split; [lia | discriminate]).
Qed.

Lemma string_length_append (s1 s2 : string) :
  String.length (s1 ++ s2) = String.length s1 + String.length s2.
Proof.
  induction s1 as [|a s1 IH]; cbn; [reflexivity | rewrite IH; reflexivity].
Qed.

Lemma string_of_bytes_length (bs : list byte) (acc : string) :
  String.length (fold_left (fun value b => (value ++ chr b)%string) bs acc) =
  String.length acc + List.length bs.
Proof.
  revert acc. induction bs as [|b bs IH]; intros acc; cbn [fold_left List.length].
  - lia.
  - rewrite IH, string_length_append. cbn. lia.
Qed.

Lemma list_of_bytes_length (bs : list byte) (acc : list pyvalue) :
  List.length (fold_left (fun value b => value ++ [PInt (Byte.to_N b)]) bs acc) =
  List.length acc + List.length bs.
Proof.
  revert acc. induction bs as [|b bs IH]; intros acc; cbn [fold_left List.length].
  - lia.
  - rewrite IH, length_app. cbn. lia.
Qed.

(** *** Cutting a stream inside an entry *)

Lemma stable_restrictable (f : extractor) :
  stable f -> decided_by_length f -> restrictable f.
Proof.
  intros Hs Hd t s start length r H Hfit.
  destruct (Hd t start length Hfit) as [(r' & E)|E].
  - pose proof (Hs t s start length r' E) as E'. congruence.
  - rewrite E in H. discriminate.
Qed.

Lemma extract_string_value_decided : decided_by_length extract_string_value.
Proof.
  intros t start length Hfit. left.
  destruct (extract_string_value_cases t start length) as [[_ ->]|[? _]];
    [eexists; reflexivity | lia].
Qed.

Lemma extract_bytes_value_decided : decided_by_length extract_bytes_value.
Proof.
  intros t start length Hfit. left.
  destruct (extract_bytes_value_cases t start length) as [[_ ->]|[? _]];
    [eexists; reflexivity | lia].
Qed.

Lemma extract_integer_value_decided : decided_by_length extract_integer_value.
Proof.
  intros t start length Hfit.
  destruct (Nat.eq_dec length 4) as [->|Hn].
  - left. destruct (extract_integer_value_4 t start) as [[_ ->]|[? _]];
      [eexists; reflexivity | lia].
  - right. intros data. apply extract_integer_value_wrong_length. exact Hn.
Qed.

Lemma extract_boolean_value_decided : decided_by_length extract_boolean_value.
Proof.
  intros t start length Hfit.
  destruct (Nat.eq_dec length 1) as [->|Hn].
  - left. destruct (extract_boolean_value_1 t start) as [[_ (b & _ & ->)]|[? _]];
      [eexists; reflexivity | lia].
  - right. intros data. apply extract_boolean_value_wrong_length. exact Hn.
Qed.

Lemma extract_resolution_value_decided :
  decided_by_length extract_resolution_value.
Proof.
  intros t start length Hfit.
  destruct (Nat.eq_dec length 9) as [->|Hn].
  - left. destruct (extract_resolution_value_9 t start) as [[_ (v & ->)]|[? _]];
      [eexists; reflexivity | lia].
  - right. intros data. apply extract_resolution_value_wrong_length. exact Hn.
Qed.

Lemma extract_range_value_decided : decided_by_length extract_range_value.
Proof.
  intros t start length Hfit.
  destruct (Nat.eq_dec length 8) as [->|Hn].
  - left. destruct (extract_range_value_8 t start) as [[_ (v & ->)]|[? _]];
      [eexists; reflexivity | lia].
  - right. intros data. apply extract_range_value_wrong_length. exact Hn.
Qed.

Lemma function_map_restrictable :
  Forall (fun p => restrictable (snd p)) function_map.
Proof.
  unfold function_map.
  repeat (apply Forall_cons;
          [ cbn [snd]; apply stable_restrictable;
            first [ exact extract_string_value_stable
                  | exact extract_integer_value_stable
                  | exact extract_boolean_value_stable
                  | exact extract_bytes_value_stable
                  | exact extract_resolution_value_stable
                  | exact extract_range_value_stable
                  | exact extract_string_value_decided
                  | exact extract_integer_value_decided
                  | exact extract_boolean_value_decided
                  | exact extract_bytes_value_decided
                  | exact extract_resolution_value_decided
                  | exact extract_range_value_decided ] | ]).
  apply Forall_nil.
Qed.

Lemma extract_value_restrict (t s : list byte) value_type start length r :
  extract_value (t ++ s) value_type start length = Ok r ->
  start + length <= List.length t ->
  extract_value t value_type start length = Ok r.
Proof.
  unfold extract_value. intros H Hfit. bind_inv H.
  rewrite check_data_boundary_fits by exact Hfit. cbn [bind].
  destruct (lookup String.eqb value_type function_map) as [f|] eqn:Ef;
    [|discriminate].
  apply lookup_In in Ef. destruct Ef as (k' & Hin & _).
  pose proof function_map_restrictable as HF. rewrite Forall_forall in HF.
  exact (HF _ Hin t s start length r H Hfit).
Qed.

Lemma declared_length_app (t s : list byte) (p : nat) :
  p + 2 <= List.length t ->
  declared_length (t ++ s) p = declared_length t p.
Proof.
  intros H. unfold declared_length. rewrite !app_nth1 by lia. reflexivity.
Qed.

Lemma extract_length_restrict (t s : list byte) (start : nat) (r : nat * nat) :
  extract_length (t ++ s) start = Ok r -> start + 2 <= List.length t ->
  extract_length t start = Ok r.
Proof.
  intros H Hfit.
  rewrite extract_length_fits in H by (rewrite length_app; lia).
  rewrite extract_length_fits by exact Hfit.
  rewrite declared_length_app in H by exact Hfit. exact H.
Qed.

(** The index an entry read at [p] ends at, from its declared lengths. *)
Lemma read_entry_next_i (data : list byte) (b : byte) (p : nat) (e : entry) :
  read_entry data b p = Ok e ->
  name_length e = declared_length data (p + 1) /\
  next_i e = p + 1 + 2 + name_length e + 2
             + declared_length data (p + 1 + 2 + name_length e) /\
  next_i e <= List.length data.
Proof.
  intros H. pose proof (read_entry_Ok _ _ _ _ H) as (_ & _ & Hle).
  unfold read_entry in H.
  bind_inv H. bind_inv H. destruct a0 as [nl c1].
  bind_inv H. destruct a0 as [nm c2].
  bind_inv H. destruct a0 as [vl c3].
  bind_inv H. destruct a0 as [v c4].
  injection H as <-. cbn [name_length next_i] in *.
  destruct (extract_length_cases data (p + 1)) as [[F1 _]|[_ E]];
    [|rewrite E in Ha0; discriminate].
  rewrite extract_length_fits in Ha0 by exact F1. injection Ha0 as <- <-.
  destruct (extract_string_value_cases data (p + 1 + 2)
              (declared_length data (p + 1))) as [[F2 E]|[_ E]];
    rewrite E in Ha1; [|discriminate].
  injection Ha1 as _ <-.
  destruct (extract_length_cases data (p + 1 + 2 + declared_length data (p + 1)))
    as [[F3 _]|[_ E3]]; [|rewrite E3 in Ha2; discriminate].
  rewrite extract_length_fits in Ha2 by exact F3. injection Ha2 as <- <-.
  apply extract_value_Ok in Ha3. destruct Ha3 as [-> _].
  split; [reflexivity|]. split; [reflexivity | exact Hle].
Qed.

Lemma read_entry_restrict (t s : list byte) (b : byte) (p : nat) (e : entry) :
  read_entry (t ++ s) b p = Ok e -> next_i e <= List.length t ->
  read_entry t b p = Ok e.
Proof.
  intros H Hle.
  pose proof (read_entry_next_i _ _ _ _ H) as (Hnl & Hnext & _).
  unfold read_entry in *.
  bind_inv H. rewrite Ha. cbn [bind].
  bind_inv H. destruct a0 as [nl c1].
  bind_inv H. destruct a0 as [nm c2].
  bind_inv H. destruct a0 as [vl c3].
  bind_inv H. destruct a0 as [v c4].
  injection H as <-. cbn [name_length next_i] in *.
  assert (E1 := Ha0).
  rewrite extract_length_fits in E1 by (rewrite length_app; lia).
  injection E1 as E1n E1c. subst c1.
  rewrite (extract_length_restrict t s _ _ Ha0) by lia. cbn [bind].
  assert (E2 : c2 = p + 1 + 2 + nl).
  { pose proof (extract_string_value_post (t ++ s) (p + 1 + 2) nl) as P.
    rewrite Ha1 in P. cbn in P. tauto. }
  subst c2.
  rewrite (stable_restrictable _ extract_string_value_stable
             extract_string_value_decided t s _ _ _ Ha1) by lia.
  cbn [bind].
  assert (E3 := Ha2).
  rewrite extract_length_fits in E3 by (rewrite length_app; lia).
  injection E3 as E3n E3c. subst c3.
  rewrite (extract_length_restrict t s _ _ Ha2) by lia. cbn [bind].
  assert (E4 := Ha3). apply extract_value_Ok in E4. destruct E4 as [-> _].
  rewrite (extract_value_restrict t s _ _ _ _ Ha3) by lia.
  reflexivity.
Qed.

Lemma loop_body_restrict (t s : list byte) (st st' : state) :
  loop_body (t ++ s) st = Continue st' -> i st' <= List.length t ->
  loop_body t st = Continue st'.
Proof.
  intros H Hle.
  pose proof (loop_body_Continue _ _ _ H) as [Hlt _].
  unfold loop_body in *.
  destruct (get_in_range t (i st)) as (b & Hb & Hg); [lia|].
  rewrite (get_app t s _ _ Hg) in H. rewrite Hg.
  destruct (is_ipp_delimiter b); [exact H|].
  unfold value_entry in *.
  destruct (read_entry (t ++ s) b (i st)) as [en|err] eqn:Er; [|discriminate].
  cbn [bind lift] in H.
  destruct (store_entry st en) as [st1|err] eqn:Es; [|discriminate].
  injection H as <-. pose proof (store_entry_Ok _ _ _ Es) as (Ei & _).
  rewrite (read_entry_restrict t s _ _ _ Er) by lia.
  cbn [bind]. rewrite Es. reflexivity.
Qed.

Lemma run_steps_monotone (data : list byte) (n : nat) (st st' : state) :
  run_steps n data st = Some st' -> i st <= i st'.
Proof.
  revert st. induction n as [|n IH]; intros st H; cbn [run_steps] in H.
  - injection H as <-. lia.
  - destruct (i st <? List.length data)%nat; [|discriminate].
    destruct (loop_body data st) as [st1|st1|e] eqn:Eb; try discriminate.
    apply loop_body_Continue in Eb. apply IH in H. lia.
Qed.

Lemma run_steps_restrict (t s : list byte) (n : nat) (st st' : state) :
  run_steps n (t ++ s) st = Some st' -> i st' <= List.length t ->
  run_steps n t st = Some st'.
Proof.
  revert st. induction n as [|n IH]; intros st H Hle; cbn [run_steps] in *;
    [exact H|].
  destruct (i st <? List.length (t ++ s))%nat; [|discriminate].
  destruct (loop_body (t ++ s) st) as [st1|st1|e] eqn:Eb; try discriminate.
  pose proof (run_steps_monotone _ _ _ _ H) as Hmono.
  pose proof (loop_body_Continue _ _ _ Eb) as [Hlt _].
  destruct (Nat.ltb_spec (i st) (List.length t)) as [_|Hge]; [|lia].
  rewrite (loop_body_restrict t s _ _ Eb) by lia.
  apply IH; assumption.
Qed.

Lemma declared_length_firstn (data : list byte) (k p : nat) :
  p + 2 <= k -> declared_length (firstn k data) p = declared_length data p.
Proof.
  intros H. unfold declared_length. rewrite !nth_firstn.
  destruct (Nat.ltb_spec p k); [|lia].
  destruct (Nat.ltb_spec (p + 1) k); [|lia]. reflexivity.
Qed.

(** A stream cut after the tag of an entry and before its end is truncated
    at that entry. *)
Lemma entry_truncated_firstn (data : list byte) (b : byte) (p k : nat) (e : entry) :
  read_entry data b p = Ok e -> p < k -> k < next_i e ->
  entry_truncated (firstn k data) p = true.
Proof.
  intros H Hpk Hk.
  destruct (read_entry_next_i _ _ _ _ H) as (Hnl & Hnext & Hle).
  unfold entry_truncated. cbv zeta.
  rewrite firstn_length_le by lia.
  rewrite !orb_true_iff, !Nat.ltb_lt.
  destruct (le_lt_dec (p + 1 + 2) k) as [H1|H1]; [|tauto].
  rewrite (declared_length_firstn data k (p + 1)) by lia.
  rewrite <- Hnl.
  destruct (le_lt_dec (p + 1 + 2 + name_length e + 2) k) as [H2|H2]; [|lia].
  rewrite (declared_length_firstn data k (p + 1 + 2 + name_length e)) by lia.
  lia.
Qed.

(** The parse of a stream whose walker reaches a truncated entry. *)
Lemma main_truncated_entry (data : list byte) (st : state) (b : byte) (ty : string) :
  reaches data st -> nth_error data (i st) = Some b ->
  get_value_type b = Ok ty -> entry_truncated data (i st) = true ->
  main data = Some (Err OutOfBounds).
Proof.
  intros (n & Hn) Hb Hty Htr.
  apply (main_raises data n st _ Hn).
  - apply nth_error_Some. congruence.
  - unfold loop_body, get. rewrite Hb.
    rewrite (value_tag_not_delimiter b ty Hty).
    unfold value_entry.
    apply (read_entry_truncated data b ty (i st) Hty) in Htr.
    rewrite Htr. reflexivity.
Qed.

Lemma reaches_firstn (data : list byte) (st : state) (k : nat) :
  reaches data st -> i st <= k -> k <= List.length data ->
  reaches (firstn k data) st.
Proof.
  intros (n & Hn) Hik Hk. exists n.
  rewrite <- (firstn_skipn k data) in Hn.
  apply (run_steps_restrict _ _ _ _ _ Hn).
  rewrite firstn_length_le by exact Hk. exact Hik.
Qed.

(** A stream cut strictly inside an entry the walker reaches, after its tag
    and before its last byte, fails with [OutOfBounds]. *)
Lemma main_cut_inside_entry (data : list byte) (st : state) (b : byte)
  (e : entry) (k : nat) :
  reaches data st -> nth_error data (i st) = Some b ->
  read_entry data b (i st) = Ok e ->
  i st < k -> k < next_i e ->
  main (firstn k data) = Some (Err OutOfBounds).
Proof.
  intros Hr Hb He Hik Hk.
  destruct (read_entry_Ok _ _ _ _ He) as (Hty & _ & Hle).
  apply (main_truncated_entry (firstn k data) st b (cur_value_type e)).
  - apply reaches_firstn; [exact Hr | lia | lia].
  - rewrite nth_error_firstn.
    destruct (Nat.ltb_spec (i st) k); [exact Hb | lia].
  - exact Hty.
  - eapply entry_truncated_firstn; eassumption.
Qed.

(** A stream cut at a tag position the walker reaches fails with
    [UnterminatedMessage]. *)
Lemma main_cut_at_tag (data : list byte) (st : state) :
  reaches data st ->
  main (firstn (i st) data) = Some (Err UnterminatedMessage).
Proof.
  intros Hr. pose proof (reaches_in_bounds _ _ Hr) as Hle.
  destruct (reaches_firstn data st (i st) Hr (le_n _) Hle) as (n & Hn).
  apply (main_exhausted _ n st Hn).
  rewrite firstn_length_le by exact Hle. apply le_n.
Qed.

(** ** Group delimiters and the fold *)

(** A group delimiter empties the group it names and leaves the remembered
    type as it was. *)
Lemma group_delimiter_keeps_prev_value_type data st b name :
  nth_error data (i st) = Some b ->
  get_delimiter_name b = Ok name -> is_ipp_delimiter b = true ->
  Byte.eqb b x03 = false ->
  loop_body data st =
  Continue {| ipp_attributes := dict_set (ipp_attributes st) name [];
              current_attributes_group := Some name;
              prev_value_type := prev_value_type st;
              i := i st + 1 |}.
Proof.
  intros Hb Hname Hd H3. unfold loop_body, get.
  rewrite Hb, Hd, H3, Hname. reflexivity.
Qed.

Lemma dict_get_set_same (d : document) (k : string) (v : list attribute) :
  dict_get (dict_set d k v) k = Some v.
Proof.
  unfold dict_get. induction d as [|[k' v'] d IH]; cbn.
  - rewrite String.eqb_refl. reflexivity.
  - destruct (String.eqb k k') eqn:E; cbn; rewrite E; [reflexivity | exact IH].
Qed.

(** Folding into a group that has no attribute yet raises. *)
Lemma extend_attribute_values_empty_group attributes g v :
  dict_get attributes g = Some [] ->
  extend_attribute_values attributes (Some g) v = Err AttributeIndexError.
Proof.
  intros H. unfold extend_attribute_values, getitem. rewrite H. reflexivity.
Qed.

(** In any stream, the first entry after a group delimiter folds when its
    type is the one remembered from before the delimiter and its name is
    empty, and the fold finds the new group empty. *)
Lemma first_entry_after_delimiter_folds data st d name b e :
  reaches data st ->
  nth_error data (i st) = Some d ->
  is_ipp_delimiter d = true -> Byte.eqb d x03 = false ->
  get_delimiter_name d = Ok name ->
  nth_error data (i st + 1) = Some b ->
  read_entry data b (i st + 1) = Ok e ->
  prev_value_type st = Some (cur_value_type e) ->
  name_length e = 0 ->
  main data = Some (Err AttributeIndexError).
Proof.
  intros (n & Hn) Hd Hdel H3 Hname Hb He Hprev Hnl.
  pose proof (group_delimiter_keeps_prev_value_type data st d name Hd Hname Hdel H3)
    as Hstep.
  set (st1 := {| ipp_attributes := dict_set (ipp_attributes st) name [];
                 current_attributes_group := Some name;
                 prev_value_type := prev_value_type st;
                 i := i st + 1 |}) in *.
  assert (H1 : run_steps 1 data st = Some st1).
  { cbn [run_steps].
    destruct (Nat.ltb_spec (i st) (List.length data)) as [_|Hge].
    - rewrite Hstep. reflexivity.
    - exfalso. apply nth_error_None in Hge. congruence. }
  apply (main_raises data (n + 1) st1).
  - eapply run_steps_app; eassumption.
  - apply nth_error_Some. cbn [i st1]. congruence.
  - unfold loop_body, get. cbn [i st1]. rewrite Hb.
    destruct (read_entry_Ok _ _ _ _ He) as (Hty & _).
    rewrite (value_tag_not_delimiter b _ Hty).
    unfold value_entry. cbn [i st1]. rewrite He. cbn [bind].
    unfold store_entry. cbn [prev_value_type st1]. rewrite Hprev, Hnl.
    cbn [same_type]. rewrite String.eqb_refl. cbn [andb Nat.eqb].
    cbn [ipp_attributes current_attributes_group st1].
    rewrite extend_attribute_values_empty_group by apply dict_get_set_same.
    reflexivity.
Qed.

(** ** Folding into the last attribute *)

Lemma rev_snoc {A : Type} (l : list A) (x : A) : rev (l ++ [x]) = x :: rev l.
Proof. rewrite rev_app_distr. reflexivity. Qed.

(** What [extend_attribute_values] does to a group whose last attribute is
    [a]: the value of [a] becomes a list, its own when it is one already,
    the one-element list of it otherwise, with [v] appended. *)
Lemma extend_attribute_values_last attributes g l a v :
  dict_get attributes g = Some (l ++ [a]) ->
  extend_attribute_values attributes (Some g) v =
  Ok (dict_set attributes g
        (l ++ [ {| attr_type := attr_type a;
                   attr_name := attr_name a;
                   attr_value :=
                     PList (match attr_value a with
                            | PList vs => vs
                            | v1 => [v1]
                            end ++ [v]) |} ])).
Proof.
  intros H. unfold extend_attribute_values, getitem. rewrite H. cbn [bind].
  rewrite rev_snoc, rev_involutive. reflexivity.
Qed.

(** The fold law for values that are not lists (strings, integers,
    booleans): an attribute with value [v1], extended by [v2], holds
    [[v1, v2]]; extended again by [v3], it holds [[v1, v2, v3]]. *)
Lemma fold_law_scalar attributes g l ty n v1 v2 v3 :
  dict_get attributes g = Some l ->
  is_list v1 = false ->
  exists d1 d2 d3,
    add_attribute attributes (Some g) ty n v1 = Ok d1 /\
    extend_attribute_values d1 (Some g) v2 = Ok d2 /\
    dict_get d2 g =
      Some (l ++ [ {| attr_type := ty; attr_name := n;
                      attr_value := PList [v1; v2] |} ]) /\
    extend_attribute_values d2 (Some g) v3 = Ok d3 /\
    dict_get d3 g =
      Some (l ++ [ {| attr_type := ty; attr_name := n;
                      attr_value := PList [v1; v2; v3] |} ]).
Proof.
  intros Hg Hv.
  eexists. eexists. eexists.
  split.
  { unfold add_attribute, getitem. rewrite Hg. reflexivity. }
  split.
  { apply extend_attribute_values_last. apply dict_get_set_same. }
  split.
  { rewrite dict_get_set_same. cbn [attr_type attr_name attr_value].
    destruct v1; try discriminate; reflexivity. }
  split.
  { apply extend_attribute_values_last. apply dict_get_set_same. }
  rewrite dict_get_set_same. cbn [attr_type attr_name attr_value].
  destruct v1; try discriminate; reflexivity.
Qed.

(** The same steps on a value that is a list (a byte array, a resolution, a
    range): the second value is appended to the elements of the first. *)
Lemma fold_of_list_value attributes g l ty n vs v2 :
  dict_get attributes g = Some l ->
  exists d1 d2,
    add_attribute attributes (Some g) ty n (PList vs) = Ok d1 /\
    extend_attribute_values d1 (Some g) v2 = Ok d2 /\
    dict_get d2 g =
      Some (l ++ [ {| attr_type := ty; attr_name := n;
                      attr_value := PList (vs ++ [v2]) |} ]).
Proof.
  intros Hg.
  eexists. eexists.
  split.
  { unfold add_attribute, getitem. rewrite Hg. reflexivity. }
  split.
  { apply extend_attribute_values_last. apply dict_get_set_same. }
  rewrite dict_get_set_same. reflexivity.
Qed.

(** * The claims *)

(** ** C1: the first entry of a new group *)

(** C1. The claim: an entry that directly follows a group delimiter, has
    the type of the last entry before the delimiter and an empty name is
    appended as the first attribute of the new group.  The loop of [main]
    does not clear [prev_value_type] at a group delimiter: on the stream
    below, an integer entry in operationAttributes, then the jobAttributes
    delimiter, then an unnamed integer entry, the state after the second
    delimiter still remembers "integer", the entry takes the fold branch,
    and the fold raises on the empty group instead of appending. *)
Theorem C1_first_entry_of_new_group_is_folded :
  run_steps 2 [x01; x21; x00; x00; x00; x04; x00; x00; x00; x05;
               x02; x21; x00; x00; x00; x04; x00; x00; x00; x07; x03]
    initial_state =
  Some {| ipp_attributes :=
            [("operationAttributes",
              [ {| attr_type := "integer";
                   attr_name := PStr "";
                   attr_value := PInt 5 |} ])];
          current_attributes_group := Some "operationAttributes";
          prev_value_type := Some "integer";
          i := 10 |} /\
  run_steps 3 [x01; x21; x00; x00; x00; x04; x00; x00; x00; x05;
               x02; x21; x00; x00; x00; x04; x00; x00; x00; x07; x03]
    initial_state =
  Some {| ipp_attributes :=
            [("operationAttributes",
              [ {| attr_type := "integer";
                   attr_name := PStr "";
                   attr_value := PInt 5 |} ]);
             ("jobAttributes", [])];
          current_attributes_group := Some "jobAttributes";
          prev_value_type := Some "integer";
          i := 11 |} /\
  main [x01; x21; x00; x00; x00; x04; x00; x00; x00; x05;
        x02; x21; x00; x00; x00; x04; x00; x00; x00; x07; x03] =
  Some (Err AttributeIndexError).
Proof.
  repeat split; reflexivity.
Qed.

(** ** C2: the byte 0x99 *)

(** C2, as stated, fails: the byte 0x99 inside the value of an octetString
    entry is data, and the byte 0x99 after the terminator is never read; both
    streams parse to a document. *)
Lemma C2_counterexample :
  In x99 [x01; x30; x00; x00; x00; x01; x99; x03] /\
  main [x01; x30; x00; x00; x00; x01; x99; x03] =
  Some (Ok [("operationAttributes",
             [ {| attr_type := "octetString";
                  attr_name := PStr "";
                  attr_value := PList [PInt 153] |} ])]) /\
  In x99 [x03; x99] /\
  main [x03; x99] = Some (Ok []).
Proof.
  repeat split; try reflexivity; cbn; auto 10.
Qed.

(** C2, amended. For every input stream in which the loop of [main] reaches
    a tag position that holds the byte 0x99, the parse aborts with
    [UnsupportedValueTag] and produces no document. *)
Theorem C2_unsupported_tag_at_tag_position (data : list byte) (st : state) :
  reaches data st ->
  nth_error data (i st) = Some x99 ->
  main data = Some (Err UnsupportedValueTag).
Proof.
  intros (n & Hn) Hb.
  apply (main_raises data n st _ Hn).
  - apply nth_error_Some. congruence.
  - unfold loop_body, get. rewrite Hb. reflexivity.
Qed.

Lemma C2_unsupported_tag_at_tag_position_witness :
  main [x01; x99; x03] = Some (Err UnsupportedValueTag).
Proof.
  apply (C2_unsupported_tag_at_tag_position [x01; x99; x03]
           {| ipp_attributes := [("operationAttributes", [])];
              current_attributes_group := Some "operationAttributes";
              prev_value_type := None;
              i := 1 |}).
  - exists 1. reflexivity.
  - reflexivity.
Defined.

(** ** C3: a value entry before any group *)

(** C3, as stated, fails: the stream that is the single value tag 0x21
    (integer) has a value tag as its first tag and fails with [OutOfBounds],
    raised when the name length is read; the stream whose integer entry
    declares a value of one byte fails with [InvalidFixedLength]. *)
Lemma C3_counterexample :
  get_value_type x21 = Ok "integer" /\
  main [x21] = Some (Err OutOfBounds) /\
  main [x21; x00; x00; x00; x01; x05; x03] = Some (Err InvalidFixedLength).
Proof.
  repeat split; reflexivity.
Qed.

(** C3, amended. For every input stream whose first byte is a value tag, the
    parse fails: with [KeyError], the exception of indexing the document by
    the group [None] (the spec's ValueBeforeGroup), when the entry itself can
    be read; with the error of the reader or extractor, [OutOfBounds] or
    [InvalidFixedLength], when it cannot. *)
Theorem C3_value_before_group (data : list byte) (b : byte) (ty : string) :
  nth_error data 0 = Some b ->
  get_value_type b = Ok ty ->
  (forall e, read_entry data b 0 = Ok e -> main data = Some (Err KeyError)) /\
  (forall err, read_entry data b 0 = Err err ->
     main data = Some (Err err) /\
     (err = OutOfBounds \/ err = InvalidFixedLength)).
Proof.
  intros Hb Hty.
  assert (Hlt : i initial_state < List.length data).
  { apply nth_error_Some. cbn [i initial_state]. congruence. }
  assert (Hbody : loop_body data initial_state =
                  lift (value_entry data b initial_state)).
  { unfold loop_body, get. cbn [i initial_state]. rewrite Hb.
    rewrite (value_tag_not_delimiter b ty Hty). reflexivity. }
  split.
  - intros e He. apply (main_raises data 0 initial_state); [reflexivity|exact Hlt|].
    rewrite Hbody. unfold value_entry. cbn [i initial_state]. rewrite He.
    cbn [bind]. rewrite store_entry_no_group. reflexivity.
  - intros err He. split.
    + apply (main_raises data 0 initial_state); [reflexivity|exact Hlt|].
      rewrite Hbody. unfold value_entry. cbn [i initial_state]. rewrite He.
      reflexivity.
    + eapply read_entry_Err_supported; eassumption.
Qed.

Lemma C3_value_before_group_witness :
  main [x21; x00; x00; x00; x04; x00; x00; x00; x05; x03] = Some (Err KeyError).
Proof.
  refine (proj1 (C3_value_before_group
                   [x21; x00; x00; x00; x04; x00; x00; x00; x05; x03]
                   x21 "integer" _ _) _ _); reflexivity.
Defined.

(** ** C4: fixed-size enforcement *)

(** C4, as stated, fails where the declared length also runs past the end of
    the stream: [extract_value] checks the bounds before it dispatches, so an
    integer entry that declares five bytes where one is left is rejected with
    [OutOfBounds]. *)
Lemma C4_counterexample :
  In ("integer", 4) fixed_sizes /\ 5 <> 4 /\
  extract_value [x01; x21; x00; x00; x00; x05; x03] "integer" 6 5 =
  Err OutOfBounds /\
  main [x01; x21; x00; x00; x00; x05; x03] = Some (Err OutOfBounds).
Proof.
  repeat split; try reflexivity; cbn; auto; lia.
Qed.

(** C4, amended. For every fixed-size value type and every declared length
    other than its required size (boolean 1, integer 4, enum 4, resolution 9,
    rangeOfInteger 8), the extractor of the type rejects the length with
    [InvalidFixedLength] on every stream and at every index; [extract_value],
    which reaches the extractor through a bounds check, rejects the entry
    with [InvalidFixedLength] when the declared length fits in the rest of
    the stream and with [OutOfBounds] when it does not. *)
Theorem C4_fixed_size_enforcement (ty : string) (n : nat)
  (data : list byte) (start length : nat) :
  In (ty, n) fixed_sizes ->
  length <> n ->
  (exists f, lookup String.eqb ty function_map = Some f /\
             f data start length = Err InvalidFixedLength) /\
  (start + length <= List.length data ->
   extract_value data ty start length = Err InvalidFixedLength) /\
  (List.length data < start + length ->
   extract_value data ty start length = Err OutOfBounds).
Proof.
  intros Hin Hne.
  assert (Hf : exists f, lookup String.eqb ty function_map = Some f /\
                         f data start length = Err InvalidFixedLength).
  { cbn in Hin.
    destruct Hin as [[= <- <-]|[[= <- <-]|[[= <- <-]|[[= <- <-]|[[= <- <-]|[]]]]]];
      eexists; (split; [reflexivity|]).
    - apply extract_boolean_value_wrong_length. exact Hne.
    - apply extract_integer_value_wrong_length. exact Hne.
    - apply extract_integer_value_wrong_length. exact Hne.
    - apply extract_resolution_value_wrong_length. exact Hne.
    - apply extract_range_value_wrong_length. exact Hne. }
  split; [exact Hf|]. split.
  - intros Hfit. destruct Hf as (f & Hl & Hr).
    destruct (extract_value_fits data ty start length f Hl Hfit) as [-> _].
    exact Hr.
  - apply extract_value_exceeds.
Qed.

Lemma C4_fixed_size_enforcement_witness :
  extract_value [x01; x23; x00; x00; x00; x02; x00; x07; x03] "enum" 6 2 =
  Err InvalidFixedLength.
Proof.
  refine (proj1 (proj2 (C4_fixed_size_enforcement "enum" 4
            [x01; x23; x00; x00; x00; x02; x00; x07; x03] 6 2 _ _)) _).
  - cbn. auto.
  - lia.
  - cbn. lia.
Defined.

(** ** C5: a document exactly at the terminator *)

(** C5. For every input byte stream, [main] returns a document exactly when
    its loop reaches the terminator delimiter 0x03 at a tag position, and the
    document is the one built up to there; when the index runs to the end of
    the stream at a tag position, the terminator not reached, [main] fails
    with [UnterminatedMessage], as it does on every stream cut at a tag
    position and on the empty stream; and a run that fails yields no
    document.  [main] always returns or fails. *)
Theorem C5_document_exactly_at_terminator (data : list byte) :
  (forall D, main data = Some (Ok D) <->
     exists st, reaches data st /\ nth_error data (i st) = Some x03 /\
                ipp_attributes st = D) /\
  (forall st, reaches data st -> List.length data <= i st ->
     main data = Some (Err UnterminatedMessage)) /\
  (forall st, reaches data st ->
     main (firstn (i st) data) = Some (Err UnterminatedMessage)) /\
  main [] = Some (Err UnterminatedMessage) /\
  (forall e, main data = Some (Err e) -> forall D, main data <> Some (Ok D)) /\
  (exists r, main data = Some r).
Proof.
  repeat split.
  - intros H. destruct (main_Ok_inv _ _ H) as (n & st & Hn & Hb & HD).
    exists st. split; [exists n; exact Hn | auto].
  - intros (st & (n & Hn) & Hb & <-). eapply main_terminator; eassumption.
  - intros st (n & Hn) Hge. eapply main_exhausted; eassumption.
  - apply main_cut_at_tag.
  - intros e He D HD. congruence.
  - apply main_total.
Qed.

(** ** C6: the fold law *)

(** C6. The claim: two consecutive entries of one type in a group, the
    second unnamed, give one attribute whose value is the list [[v1, v2]].
    For two octetString entries with values [[170]] and [[187]] the
    attribute [main] builds holds [[170, [187]]], not [[[170], [187]]]: the
    first value is a list already, so [extend_attribute_values] appends the
    second value to the bytes of the first.  On integer entries (Scenario E
    of the specification) the law holds. *)
Theorem C6_fold_of_byte_arrays :
  main [x01; x30; x00; x00; x00; x01; xaa;
             x30; x00; x00; x00; x01; xbb; x03] =
  Some (Ok [("operationAttributes",
             [ {| attr_type := "octetString";
                  attr_name := PStr "";
                  attr_value := PList [PInt 170; PList [PInt 187]] |} ])]) /\
  extract_value [x01; x30; x00; x00; x00; x01; xaa;
                      x30; x00; x00; x00; x01; xbb; x03] "octetString" 6 1 =
  Ok (PList [PInt 170], 7) /\
  extract_value [x01; x30; x00; x00; x00; x01; xaa;
                      x30; x00; x00; x00; x01; xbb; x03] "octetString" 12 1 =
  Ok (PList [PInt 187], 13) /\
  main [x01; x21; x00; x00; x00; x04; x00; x00; x00; x05;
             x21; x00; x00; x00; x04; x00; x00; x00; x07; x03] =
  Some (Ok [("operationAttributes",
             [ {| attr_type := "integer";
                  attr_name := PStr "";
                  attr_value := PList [PInt 5; PInt 7] |} ])]).
Proof.
  repeat split; reflexivity.
Qed.

(** ** C7: bounds safety *)

(** C7. For every input in which an entry the walker reaches declares
    something the remaining bytes cannot satisfy (the two bytes of the name
    length, the name, the two bytes of the value length or the value), the
    parse raises [OutOfBounds]; in particular, cutting a stream anywhere
    inside an entry the walker reaches, after the tag and before the last
    byte of the value, makes the parse raise [OutOfBounds].  No read
    accesses an index past the end of the stream: the exception of such a
    read is raised neither by the readers nor by [main].  No value is
    silently cut short: a string or byte array that is returned has exactly
    the declared length, and every extraction consumes exactly the declared
    length. *)
Theorem C7_bounds_safety (data : list byte) :
  (forall st b ty,
     reaches data st -> nth_error data (i st) = Some b ->
     get_value_type b = Ok ty -> entry_truncated data (i st) = true ->
     main data = Some (Err OutOfBounds)) /\
  (forall st b e k,
     reaches data st -> nth_error data (i st) = Some b ->
     read_entry data b (i st) = Ok e -> i st < k -> k < next_i e ->
     main (firstn k data) = Some (Err OutOfBounds)) /\
  main data <> Some (Err StreamIndexError) /\
  (forall start, extract_length data start <> Err StreamIndexError) /\
  (forall f, In f extractors -> forall start length,
     f data start length <> Err StreamIndexError) /\
  (forall value_type start length,
     extract_value data value_type start length <> Err StreamIndexError) /\
  (forall start length v c,
     extract_string_value data start length = Ok (v, c) ->
     exists s, v = PStr s /\ String.length s = length) /\
  (forall start length v c,
     extract_bytes_value data start length = Ok (v, c) ->
     exists l, v = PList l /\ List.length l = length) /\
  (forall value_type start length v c,
     extract_value data value_type start length = Ok (v, c) ->
     c = start + length).
Proof.
  repeat apply conj.
  - intros st b ty. apply main_truncated_entry.
  - intros st b e k. apply main_cut_inside_entry.
  - intros H. apply main_Err_inv in H.
    destruct H as [[H _]|(n & st & _ & Hlt & Hb)]; [discriminate|].
    apply loop_body_Raise in Hb; [|exact Hlt].
    cbn in Hb. intuition discriminate.
  - intros start.
    destruct (extract_length_cases data start) as [[_ (n & ->)]|[_ ->]];
      discriminate.
  - intros f Hin start length H.
    pose proof extractors_post as HF. rewrite Forall_forall in HF.
    specialize (HF f Hin data start length). rewrite H in HF. cbn in HF.
    destruct HF as [HF|[HF _]]; discriminate.
  - intros value_type start length H.
    unfold extract_value in H.
    destruct (check_data_boundary_cases data start length) as [[Hfit E]|[_ E]];
      rewrite E in H; cbn [bind] in H; [|discriminate].
    destruct (lookup String.eqb value_type function_map) as [f|] eqn:Ef;
      [|discriminate].
    destruct (extract_value_fits data value_type start length f Ef Hfit)
      as [_ [(v & E')|E']]; rewrite E' in H; discriminate.
  - intros start length v c H.
    destruct (extract_string_value_cases data start length) as [[Hfit E]|[_ E]];
      rewrite E in H; [|discriminate].
    injection H as <- _. eexists. split; [reflexivity|].
    rewrite string_of_bytes_length, slice_length by exact Hfit. reflexivity.
  - intros start length v c H.
    destruct (extract_bytes_value_cases data start length) as [[Hfit E]|[_ E]];
      rewrite E in H; [|discriminate].
    injection H as <- _. eexists. split; [reflexivity|].
    rewrite list_of_bytes_length, slice_length by exact Hfit. reflexivity.
  - intros value_type start length v c H.
    apply extract_value_Ok in H. tauto.
Qed.

Lemma C7_bounds_safety_witness :
  main [x01; x44; x00; x03; x61; x62; x03] = Some (Err OutOfBounds).
Proof.
  refine (proj1 (C7_bounds_safety [x01; x44; x00; x03; x61; x62; x03])
            {| ipp_attributes := [("operationAttributes", [])];
               current_attributes_group := Some "operationAttributes";
               prev_value_type := None;
               i := 1 |} x44 "keyword" _ _ _ _).
  - exists 1. reflexivity.
  - reflexivity.
  - reflexivity.
  - reflexivity.
Defined.

(** ** C8: bytes after the terminator *)

(** C8. If parsing a byte stream [t] succeeds with document [D], then for
    every byte sequence [s] parsing [t ++ s] succeeds with the same [D]: what
    follows the first terminator reached at a tag position is never read and
    raises nothing. *)
Theorem C8_suffix_after_terminator_ignored (t s : list byte) (D : document) :
  main t = Some (Ok D) -> main (t ++ s) = Some (Ok D).
Proof.
  intros H. destruct (main_Ok_inv _ _ H) as (n & st & Hn & Hb & <-).
  apply (main_terminator (t ++ s) n st).
  - apply run_steps_extend. exact Hn.
  - rewrite nth_error_app1 by (apply nth_error_Some; congruence). exact Hb.
Qed.

Lemma C8_suffix_after_terminator_ignored_witness :
  main ([x01; x21; x00; x00; x00; x04; x00; x00; x00; x2a; x03]
        ++ [x99; x21; xff]) =
  Some (Ok [("operationAttributes",
             [ {| attr_type := "integer";
                  attr_name := PStr "";
                  attr_value := PInt 42 |} ])]).
Proof.
  apply C8_suffix_after_terminator_ignored. reflexivity.
Defined.

(** ** C9: the cursor *)

(** C9. Throughout every parse the stream is read at a cursor that only
    moves forward and stays within [0 <= c <= length]: every extraction that
    returns gives back an index at or after the one it was given and at most
    the length of the stream; the index [i] of the loop of [main] is within
    these bounds at the top of every pass; and every full pass of the loop
    body leaves [i] strictly greater, still at most the length. *)
Theorem C9_cursor_monotone_within_bounds (data : list byte) :
  (forall start n c, extract_length data start = Ok (n, c) ->
     start <= c /\ c <= List.length data) /\
  (forall f, In f extractors -> forall start length v c,
     f data start length = Ok (v, c) -> start <= c /\ c <= List.length data) /\
  (forall value_type start length v c,
     extract_value data value_type start length = Ok (v, c) ->
     start <= c /\ c <= List.length data) /\
  (forall b p e, read_entry data b p = Ok e ->
     p <= next_i e /\ next_i e <= List.length data) /\
  (forall st, reaches data st -> 0 <= i st /\ i st <= List.length data) /\
  (forall st st', reaches data st -> loop_body data st = Continue st' ->
     i st < i st' /\ i st' <= List.length data).
Proof.
  repeat apply conj.
  - intros start n c H.
    destruct (extract_length_cases data start) as [[Hfit (n' & E)]|[_ E]];
      rewrite E in H; [|discriminate].
    injection H as _ <-. lia.
  - intros f Hin start length v c H.
    pose proof extractors_post as HF. rewrite Forall_forall in HF.
    specialize (HF f Hin data start length). rewrite H in HF. cbn in HF. lia.
  - intros value_type start length v c H.
    apply extract_value_Ok in H. lia.
  - intros b p e H. apply read_entry_Ok in H. lia.
  - intros st H. apply reaches_in_bounds in H. lia.
  - intros st st' _ H. apply loop_body_Continue in H. exact H.
Qed.

(** ** C10: the delimiter-name lookup *)

(** C10. For every input the parse never fails with the unsupported-delimiter
    error: the delimiter-name lookup is applied only to a byte found among
    0x01, 0x02, 0x03, 0x04 and other than 0x03, on which it returns the name
    of a group; so every key of the document under construction, and of the
    document returned, is a group name, and 'endOfAttributes' is never one. *)
Theorem C10_unsupported_delimiter_unreachable (data : list byte) :
  main data <> Some (Err UnsupportedDelimiter) /\
  (forall b, is_ipp_delimiter b = true -> Byte.eqb b x03 = false ->
     exists name, get_delimiter_name b = Ok name /\ In name group_names) /\
  (forall st, reaches data st ->
     ~ In "endOfAttributes" (keys (ipp_attributes st))) /\
  (forall D, main data = Some (Ok D) -> ~ In "endOfAttributes" (keys D)).
Proof.
  assert (Hno : ~ In "endOfAttributes" group_names).
  { cbn. intros [H|[H|[H|[]]]]; discriminate. }
  repeat apply conj.
  - intros H. apply main_Err_inv in H.
    destruct H as [[H _]|(n & st & _ & Hlt & Hb)]; [discriminate|].
    apply loop_body_Raise in Hb; [|exact Hlt].
    cbn in Hb. intuition discriminate.
  - exact get_delimiter_name_group.
  - intros st Hr Hk. apply Hno. exact (reaches_keys data st Hr _ Hk).
  - intros D H Hk. apply main_Ok_inv in H. destruct H as (n & st & Hn & _ & <-).
    apply Hno. apply (reaches_keys data st); [exists n; exact Hn | exact Hk].
Qed.

(** * Further properties of the code *)

(** ** The hex tokens *)

Lemma hex_value_bound (c : ascii) : is_hex_digit c = true -> (hex_value c < 16)%N.
Proof.
  destruct c as [[] [] [] [] [] [] [] []]; vm_compute; congruence.
Qed.

Lemma int16_bound (val : string) : re_match_hex2 val = true -> (int16 val < 256)%N.
Proof.
  destruct val as [|a [|b rest]]; cbn [re_match_hex2 int16]; try discriminate.
  intros H. apply andb_prop in H. destruct H as [H _].
  apply andb_prop in H. destruct H as [Ha Hb].
  apply hex_value_bound in Ha. apply hex_value_bound in Hb. lia.
Qed.

Lemma byte_of_small (n : N) : (n < 256)%N -> exists b : byte, Byte.to_N b = n.
Proof.
  intros H. destruct (Byte.of_N n) as [b|] eqn:E.
  - exists b. apply Byte.to_of_N. exact E.
  - apply Byte.of_N_None_iff in E. lia.
Qed.

Lemma extract_ascii_values_from_accepts (data : list string) (acc : list N) :
  Forall (fun val => re_match_hex2 val = true) data ->
  extract_ascii_values_from data acc = Values (acc ++ map int16 data).
Proof.
  intros H. revert acc. induction H as [|val data Hv _ IH]; intros acc;
    cbn [extract_ascii_values_from map].
  - rewrite app_nil_r. reflexivity.
  - rewrite Hv. cbn [negb]. rewrite IH, <- app_assoc. reflexivity.
Qed.

Lemma extract_ascii_values_from_rejects (pre post : list string) (val : string)
  (acc : list N) :
  Forall (fun val => re_match_hex2 val = true) pre ->
  re_match_hex2 val = false ->
  extract_ascii_values_from (pre ++ val :: post) acc = InvalidByteString val.
Proof.
  intros H Hv. revert acc. induction H as [|v pre Hm _ IH]; intros acc;
    cbn [extract_ascii_values_from app].
  - rewrite Hv. reflexivity.
  - rewrite Hm. cbn [negb]. apply IH.
Qed.

(** A list of tokens is all valid or has a first invalid token. *)
Lemma first_invalid_token (data : list string) :
  Forall (fun val => re_match_hex2 val = true) data \/
  exists pre val post, data = pre ++ val :: post /\
    Forall (fun val => re_match_hex2 val = true) pre /\
    re_match_hex2 val = false.
Proof.
  induction data as [|v data IH].
  - left. constructor.
  - destruct (re_match_hex2 v) eqn:Ev.
    + destruct IH as [IH|(pre & val & post & -> & Hpre & Hval)].
      * left. constructor; assumption.
      * right. exists (v :: pre), val, post. repeat split; auto.
    + right. exists [], v, data. repeat split; auto.
Qed.

(** X1. [extract_ascii_values] returns a list exactly when every token is
    two hex digits (a final newline allowed by the pattern); the list then
    has one integer per token, in order, each the value of its token and
    each a byte: the streams the decoder receives are lists of bytes. *)
Theorem extract_ascii_values_accepts (data : list string) :
  (Forall (fun val => re_match_hex2 val = true) data <->
   exists ascii_values, extract_ascii_values data = Values ascii_values) /\
  (forall ascii_values, extract_ascii_values data = Values ascii_values ->
     ascii_values = map int16 data /\
     List.length ascii_values = List.length data /\
     exists bs : list byte, ascii_values = map Byte.to_N bs).
Proof.
  assert (Hall : forall vs, extract_ascii_values data = Values vs ->
            Forall (fun val => re_match_hex2 val = true) data).
  { intros vs H.
    destruct (first_invalid_token data)
      as [Hd|(pre & val & post & -> & Hpre & Hval)]; [exact Hd|].
    unfold extract_ascii_values in H.
    rewrite extract_ascii_values_from_rejects in H by assumption. discriminate. }
  split.
  - split.
    + intros H. eexists. unfold extract_ascii_values.
      apply extract_ascii_values_from_accepts. exact H.
    + intros (vs & H). exact (Hall vs H).
  - intros vs H. pose proof (Hall vs H) as Hd.
    unfold extract_ascii_values in H.
    rewrite extract_ascii_values_from_accepts in H by exact Hd.
    cbn [app] in H. injection H as <-.
    split; [reflexivity|]. split; [apply length_map|].
    clear Hall. induction Hd as [|val data Hv _ IH].
    + exists []. reflexivity.
    + destruct IH as (bs & IH).
      destruct (byte_of_small (int16 val) (int16_bound val Hv)) as (b & Hb).
      exists (b :: bs). cbn [map]. rewrite Hb, IH. reflexivity.
Qed.

(** X2. [extract_ascii_values] rejects a list of tokens exactly when one of
    them is not two hex digits, and the token it reports is the first such
    token of the list. *)
Theorem extract_ascii_values_rejects_first (data : list string) (val : string) :
  extract_ascii_values data = InvalidByteString val <->
  exists pre post, data = pre ++ val :: post /\
    Forall (fun v => re_match_hex2 v = true) pre /\
    re_match_hex2 val = false.
Proof.
  split.
  - intros H.
    destruct (first_invalid_token data)
      as [Hd|(pre & v & post & -> & Hpre & Hv)].
    + unfold extract_ascii_values in H.
      rewrite extract_ascii_values_from_accepts in H by exact Hd. discriminate.
    + unfold extract_ascii_values in H.
      rewrite extract_ascii_values_from_rejects in H by assumption.
      injection H as ->. exists pre, post. auto.
  - intros (pre & post & -> & Hpre & Hv).
    apply extract_ascii_values_from_rejects; assumption.
Qed.

Lemma hex_token_accepted (b : byte) :
  re_match_hex2 (hex_token b) = true /\ int16 (hex_token b) = Byte.to_N b.
Proof.
  destruct b; vm_compute; split; reflexivity.
Qed.

(** X3. Writing each byte of a stream as its two hex digits and reading the
    tokens back with [extract_ascii_values] gives the stream: every list of
    bytes is the content of some input file. *)
Theorem extract_ascii_values_of_hex_tokens (bs : list byte) :
  extract_ascii_values (map hex_token bs) = Values (map Byte.to_N bs).
Proof.
  unfold extract_ascii_values.
  rewrite extract_ascii_values_from_accepts.
  - cbn [app]. f_equal. rewrite map_map. apply map_ext.
    intros b. apply hex_token_accepted.
  - apply Forall_forall. intros val Hin. apply in_map_iff in Hin.
    destruct Hin as (b & <- & _). apply hex_token_accepted.
Qed.

(** ** The two classes of tags *)

Lemma NoDup_snd_inj {K V : Type} (d : list (K * V)) (k1 k2 : K) (v : V) :
  NoDup (map snd d) -> In (k1, v) d -> In (k2, v) d -> k1 = k2.
Proof.
  induction d as [|[k v'] d IH]; cbn [map snd]; intros Hnd H1 H2; [destruct H1|].
  inversion Hnd as [|x l Hnotin Hnd']; subst.
  destruct H1 as [E1|H1]; destruct H2 as [E2|H2].
  - congruence.
  - exfalso. apply Hnotin. apply (in_map snd) in H2. cbn [snd] in H2. congruence.
  - exfalso. apply Hnotin. apply (in_map snd) in H1. cbn [snd] in H1. congruence.
  - apply IH; assumption.
Qed.

Lemma lookup_byte_inj (d : list (byte * string)) (b1 b2 : byte) (v : string) :
  NoDup (map snd d) ->
  lookup Byte.eqb b1 d = Some v -> lookup Byte.eqb b2 d = Some v -> b1 = b2.
Proof.
  intros Hnd H1 H2.
  apply lookup_In in H1. destruct H1 as (k1 & Hin1 & E1).
  apply lookup_In in H2. destruct H2 as (k2 & Hin2 & E2).
  apply Byte.byte_dec_bl in E1. apply Byte.byte_dec_bl in E2. subst k1 k2.
  eapply NoDup_snd_inj; eassumption.
Qed.

Lemma values_map_names_NoDup : NoDup (map snd values_map).
Proof.
  cbn. repeat (constructor; [cbn; intuition discriminate|]). constructor.
Qed.

Lemma delimiters_map_names_NoDup : NoDup (map snd delimiters_map).
Proof.
  cbn. repeat (constructor; [cbn; intuition discriminate|]). constructor.
Qed.

(** X4. A byte is a delimiter for [is_ipp_delimiter] exactly when
    [get_delimiter_name] has a name for it, and then [get_value_type]
    rejects it: the delimiter tags and the value tags are disjoint.  Both
    tables are injective: two tags with the same name are the same tag, so
    comparing type names, as the fold test does, is comparing value tags. *)
Theorem tag_classes_disjoint_and_injective (b : byte) :
  (is_ipp_delimiter b = true <-> exists name, get_delimiter_name b = Ok name) /\
  (is_ipp_delimiter b = true -> get_value_type b = Err UnsupportedValueTag) /\
  (forall b' name, get_delimiter_name b = Ok name ->
     get_delimiter_name b' = Ok name -> b = b') /\
  (forall b' value_type, get_value_type b = Ok value_type ->
     get_value_type b' = Ok value_type -> b = b').
Proof.
  split; [|split; [|split]].
  - destruct b; cbn; split; intros H;
      first [ discriminate | eexists; reflexivity | reflexivity
            | destruct H as (name & H); discriminate ].
  - destruct b; cbn; intros H; first [discriminate | reflexivity].
  - intros b' name H1 H2. unfold get_delimiter_name in *.
    destruct (lookup Byte.eqb b delimiters_map) as [n1|] eqn:E1; [|discriminate].
    destruct (lookup Byte.eqb b' delimiters_map) as [n2|] eqn:E2; [|discriminate].
    injection H1 as ->. injection H2 as ->.
    exact (lookup_byte_inj _ _ _ _ delimiters_map_names_NoDup E1 E2).
  - intros b' ty H1 H2. unfold get_value_type in *.
    destruct (lookup Byte.eqb b values_map) as [n1|] eqn:E1; [|discriminate].
    destruct (lookup Byte.eqb b' values_map) as [n2|] eqn:E2; [|discriminate].
    injection H1 as ->. injection H2 as ->.
    exact (lookup_byte_inj _ _ _ _ values_map_names_NoDup E1 E2).
Qed.

(** ** What the extractors return *)

Lemma slice_cons (data : list byte) (start n : nat) :
  start < List.length data ->
  slice data start (S n) = nth start data x00 :: slice data (S start) n.
Proof.
  unfold slice. revert data. induction start as [|s IH]; intros [|x l] H;
    cbn in H; try lia.
  - reflexivity.
  - cbn [skipn nth]. apply IH. lia.
Qed.

Lemma slice_4 (data : list byte) (start : nat) :
  start + 4 <= List.length data ->
  slice data start 4 =
  [nth start data x00; nth (start + 1) data x00;
   nth (start + 2) data x00; nth (start + 3) data x00].
Proof.
  intros H.
  rewrite !slice_cons by lia.
  replace (S start) with (start + 1) by lia.
  replace (S (start + 1)) with (start + 2) by lia.
  replace (S (start + 2)) with (start + 3) by lia.
  reflexivity.
Qed.

Lemma big_endian_4 (b0 b1 b2 b3 : byte) :
  (big_endian [b0; b1; b2; b3] =
   Byte.to_N b0 * 16777216 + Byte.to_N b1 * 65536 + Byte.to_N b2 * 256
   + Byte.to_N b3 /\
   big_endian [b0; b1; b2; b3] < 4294967296)%N.
Proof.
  unfold big_endian. cbn [fold_left].
  pose proof (Byte.to_N_bounded b0). pose proof (Byte.to_N_bounded b1).
  pose proof (Byte.to_N_bounded b2). pose proof (Byte.to_N_bounded b3).
  split; lia.
Qed.

(** X5. On four bytes inside the stream [extract_integer_value] returns
    their unsigned big-endian value, [b0 * 2^24 + b1 * 2^16 + b2 * 2^8 + b3],
    which is below [2^32] and never negative, and the index four further. *)
Theorem extract_integer_value_unsigned_big_endian (data : list byte) (start : nat) :
  start + 4 <= List.length data ->
  exists v : N,
    extract_integer_value data start 4 = Ok (PInt v, start + 4) /\
    (v = Byte.to_N (nth start data x00) * 16777216
         + Byte.to_N (nth (start + 1) data x00) * 65536
         + Byte.to_N (nth (start + 2) data x00) * 256
         + Byte.to_N (nth (start + 3) data x00))%N /\
    (v < 4294967296)%N.
Proof.
  intros H.
  destruct (extract_integer_value_4 data start) as [[_ E]|[? _]]; [|lia].
  eexists. split; [exact E|].
  fold (big_endian (slice data start 4)).
  rewrite slice_4 by exact H. apply big_endian_4.
Qed.

Lemma extract_integer_value_unsigned_big_endian_witness :
  exists v : N,
    extract_integer_value [x01; xff; xff; xff; xfe; x03] 1 4 = Ok (PInt v, 5) /\
    v = 4294967294%N /\ (v < 4294967296)%N.
Proof.
  destruct (extract_integer_value_unsigned_big_endian
              [x01; xff; xff; xff; xfe; x03] 1) as (v & E & Hv & Hb).
  - cbn. lia.
  - exists v. split; [exact E|]. split; [exact Hv | exact Hb].
Defined.

(** X6. A length field that [extract_length] returns is the unsigned
    big-endian value of the two bytes at the index, below [256 * 256], and the
    index returned is two further. *)
Theorem extract_length_big_endian (data : list byte) (start n c : nat) :
  extract_length data start = Ok (n, c) ->
  n = 256 * Byte.to_nat (nth start data x00)
      + Byte.to_nat (nth (start + 1) data x00) /\
  n < 256 * 256 /\ c = start + 2 /\ start + 2 <= List.length data.
Proof.
  intros H.
  destruct (extract_length_cases data start) as [[Hfit _]|[_ E]];
    [|rewrite E in H; discriminate].
  rewrite extract_length_fits in H by exact Hfit.
  injection H as <- <-. unfold declared_length.
  pose proof (Byte.to_nat_bounded (nth start data x00)).
  pose proof (Byte.to_nat_bounded (nth (start + 1) data x00)).
  repeat split; lia.
Qed.

Lemma extract_length_big_endian_witness :
  258 = 256 * Byte.to_nat (nth 1 [x44; x01; x02] x00)
        + Byte.to_nat (nth (1 + 1) [x44; x01; x02] x00) /\
  258 < 256 * 256 /\ 3 = 1 + 2 /\ 1 + 2 <= List.length [x44; x01; x02].
Proof.
  apply (extract_length_big_endian [x44; x01; x02] 1 258 3). reflexivity.
Defined.

Lemma append_empty_r (s : string) : (s ++ "")%string = s.
Proof.
  induction s as [|a s IH]; cbn; [reflexivity | rewrite IH; reflexivity].
Qed.

Lemma append_snoc (s t : string) (a : ascii) :
  ((s ++ String a "") ++ t)%string = (s ++ String a t)%string.
Proof.
  induction s as [|a' s IH]; cbn; [reflexivity | rewrite IH; reflexivity].
Qed.

Lemma string_of_bytes_fold (bs : list byte) (acc : string) :
  fold_left (fun value b => (value ++ chr b)%string) bs acc =
  (acc ++ string_of_list_byte bs)%string.
Proof.
  revert acc. induction bs as [|b bs IH]; intros acc; cbn [fold_left].
  - cbn. rewrite append_empty_r. reflexivity.
  - rewrite IH. unfold chr. rewrite append_snoc. reflexivity.
Qed.

Lemma list_of_bytes_fold (bs : list byte) (acc : list pyvalue) :
  fold_left (fun value b => value ++ [PInt (Byte.to_N b)]) bs acc =
  acc ++ map (fun b => PInt (Byte.to_N b)) bs.
Proof.
  revert acc. induction bs as [|b bs IH]; intros acc; cbn [fold_left map].
  - rewrite app_nil_r. reflexivity.
  - rewrite IH, <- app_assoc. reflexivity.
Qed.

(** X7. The string [extract_string_value] returns spells, one character per
    byte, exactly the bytes of the stream from [start] to [start + length];
    the list [extract_bytes_value] returns holds exactly those bytes as
    integers.  Neither drops, adds or reorders a byte. *)
Theorem extracted_text_is_the_slice (data : list byte) (start length : nat) :
  (forall v c, extract_string_value data start length = Ok (v, c) ->
     exists s, v = PStr s /\
       list_byte_of_string s = slice data start length) /\
  (forall v c, extract_bytes_value data start length = Ok (v, c) ->
     v = PList (map (fun b => PInt (Byte.to_N b)) (slice data start length))).
Proof.
  split.
  - intros v c H.
    destruct (extract_string_value_cases data start length) as [[_ E]|[_ E]];
      rewrite E in H; [|discriminate].
    injection H as <- _. eexists. split; [reflexivity|].
    rewrite string_of_bytes_fold. cbn [append].
    apply list_byte_of_string_of_list_byte.
  - intros v c H.
    destruct (extract_bytes_value_cases data start length) as [[_ E]|[_ E]];
      rewrite E in H; [|discriminate].
    injection H as <- _. rewrite list_of_bytes_fold. reflexivity.
Qed.

Lemma extract_resolution_value_Ok (data : list byte) (start length : nat) v c :
  extract_resolution_value data start length = Ok (v, c) ->
  length = 9 /\ c = start + 9 /\
  v = PList [ PInt (big_endian (slice data start 4));
              PInt (big_endian (slice data (start + 4) 4));
              PInt (Byte.to_N (nth (start + 8) data x00)) ].
Proof.
  intros H.
  destruct (Nat.eq_dec length 9) as [->|Hn];
    [|rewrite extract_resolution_value_wrong_length in H by exact Hn;
      discriminate].
  split; [reflexivity|].
  unfold extract_resolution_value in H. cbn [Nat.eqb negb] in H.
  destruct (check_data_boundary_cases data start 9) as [[Hfit E]|[_ E]];
    rewrite E in H; cbn [bind] in H; [|discriminate].
  destruct (extract_integer_value_4 data start) as [[_ E1]|[? _]]; [|lia].
  rewrite E1 in H. cbn [bind] in H.
  destruct (extract_integer_value_4 data (start + 4)) as [[_ E2]|[? _]]; [|lia].
  rewrite E2 in H. cbn [bind] in H.
  destruct (extract_byte_value_1 data (start + 4 + 4))
    as [[_ (b & Hb & E3)]|[? _]]; [|lia].
  rewrite E3 in H. cbn [bind] in H. injection H as <- <-.
  split; [lia|]. unfold big_endian.
  replace (start + 8) with (start + 4 + 4) by lia.
  rewrite (nth_error_nth _ _ x00 Hb). reflexivity.
Qed.

Lemma extract_range_value_Ok (data : list byte) (start length : nat) v c :
  extract_range_value data start length = Ok (v, c) ->
  length = 8 /\ c = start + 8 /\
  v = PList [ PInt (big_endian (slice data start 4));
              PInt (big_endian (slice data (start + 4) 4)) ].
Proof.
  intros H.
  destruct (Nat.eq_dec length 8) as [->|Hn];
    [|rewrite extract_range_value_wrong_length in H by exact Hn; discriminate].
  split; [reflexivity|].
  unfold extract_range_value in H. cbn [Nat.eqb negb] in H.
  destruct (check_data_boundary_cases data start 8) as [[Hfit E]|[_ E]];
    rewrite E in H; cbn [bind] in H; [|discriminate].
  destruct (extract_integer_value_4 data start) as [[_ E1]|[? _]]; [|lia].
  rewrite E1 in H. cbn [bind] in H.
  destruct (extract_integer_value_4 data (start + 4)) as [[_ E2]|[? _]]; [|lia].
  rewrite E2 in H. cbn [bind] in H. injection H as <- <-.
  split; [lia | reflexivity].
Qed.

(** X8. A resolution is decoded from nine bytes as the list of the unsigned
    big-endian integer of the first four, that of the next four, and the
    ninth byte; a range from eight bytes as the list of the two integers.
    No other length is accepted. *)
Theorem structured_values_compose (data : list byte) (start length : nat) :
  (forall v c, extract_resolution_value data start length = Ok (v, c) ->
     length = 9 /\ c = start + 9 /\
     v = PList [ PInt (big_endian (slice data start 4));
                 PInt (big_endian (slice data (start + 4) 4));
                 PInt (Byte.to_N (nth (start + 8) data x00)) ]) /\
  (forall v c, extract_range_value data start length = Ok (v, c) ->
     length = 8 /\ c = start + 8 /\
     v = PList [ PInt (big_endian (slice data start 4));
                 PInt (big_endian (slice data (start + 4) 4)) ]).
Proof.
  split; intros v c.
  - apply extract_resolution_value_Ok.
  - apply extract_range_value_Ok.
Qed.

Lemma extract_value_dispatch data value_type start length f r :
  lookup String.eqb value_type function_map = Some f ->
  extract_value data value_type start length = Ok r ->
  f data start length = Ok r.
Proof.
  intros Hf H. unfold extract_value in H. bind_inv H. rewrite Hf in H. exact H.
Qed.

Lemma extract_string_value_not_list data start length v c :
  extract_string_value data start length = Ok (v, c) -> is_list v = false.
Proof.
  intros H.
  destruct (extract_string_value_cases data start length) as [[_ E]|[_ E]];
    rewrite E in H; [|discriminate].
  injection H as <- _. reflexivity.
Qed.

Lemma extract_integer_value_not_list data start length v c :
  extract_integer_value data start length = Ok (v, c) -> is_list v = false.
Proof.
  intros H.
  destruct (Nat.eq_dec length 4) as [->|Hn];
    [|rewrite extract_integer_value_wrong_length in H by exact Hn; discriminate].
  destruct (extract_integer_value_4 data start) as [[_ E]|[_ E]];
    rewrite E in H; [|discriminate].
  injection H as <- _. reflexivity.
Qed.

Lemma extract_boolean_value_not_list data start length v c :
  extract_boolean_value data start length = Ok (v, c) -> is_list v = false.
Proof.
  intros H.
  destruct (Nat.eq_dec length 1) as [->|Hn];
    [|rewrite extract_boolean_value_wrong_length in H by exact Hn; discriminate].
  destruct (extract_boolean_value_1 data start) as [[_ (b & _ & E)]|[_ E]];
    rewrite E in H; [|discriminate].
  injection H as <- _. reflexivity.
Qed.

Lemma extract_bytes_value_list data start length v c :
  extract_bytes_value data start length = Ok (v, c) -> is_list v = true.
Proof.
  intros H.
  destruct (extract_bytes_value_cases data start length) as [[_ E]|[_ E]];
    rewrite E in H; [|discriminate].
  injection H as <- _. reflexivity.
Qed.

Lemma extract_resolution_value_list data start length v c :
  extract_resolution_value data start length = Ok (v, c) -> is_list v = true.
Proof.
  intros H. apply extract_resolution_value_Ok in H.
  destruct H as (_ & _ & ->). reflexivity.
Qed.

Lemma extract_range_value_list data start length v c :
  extract_range_value data start length = Ok (v, c) -> is_list v = true.
Proof.
  intros H. apply extract_range_value_Ok in H.
  destruct H as (_ & _ & ->). reflexivity.
Qed.

Ltac list_shape H :=
  eapply extract_value_dispatch in H; [|reflexivity];
  first [ apply extract_string_value_not_list in H
        | apply extract_integer_value_not_list in H
        | apply extract_boolean_value_not_list in H
        | apply extract_bytes_value_list in H
        | apply extract_resolution_value_list in H
        | apply extract_range_value_list in H ].

Lemma value_is_list_iff (data : list byte) (b : byte) (value_type : string)
  (start length : nat) (v : pyvalue) (c : nat) :
  get_value_type b = Ok value_type ->
  extract_value data value_type start length = Ok (v, c) ->
  (is_list v = true <-> In value_type list_valued_types).
Proof.
  unfold get_value_type.
  destruct (lookup Byte.eqb b values_map) as [name|] eqn:E; [|discriminate].
  intros [= <-] H. apply lookup_In in E. destruct E as (k & Hin & _).
  cbn in Hin.
  repeat (destruct Hin as [Hin|Hin];
          [ injection Hin as <- <-; list_shape H; rewrite H; cbn;
            split; [ intros; first [discriminate | tauto]
                   | intros; first [reflexivity | intuition discriminate] ]
          | ]).
  destruct Hin.
Qed.

Lemma read_entry_value_is_list (data : list byte) (b : byte) (p : nat)
  (e : entry) :
  read_entry data b p = Ok e ->
  (is_list (value e) = true <-> In (cur_value_type e) list_valued_types).
Proof.
  intros H. unfold read_entry in H.
  bind_inv H. bind_inv H. destruct a0 as [nl c1].
  bind_inv H. destruct a0 as [nm c2].
  bind_inv H. destruct a0 as [vl c3].
  bind_inv H. destruct a0 as [v c4].
  injection H as <-. cbn [value cur_value_type].
  eapply value_is_list_iff; eassumption.
Qed.

(** X9. The value decoded for an entry is a Python list exactly when the
    type of the entry is octetString, dateTime, resolution or rangeOfInteger;
    for the fifteen other types it is a string, an integer or a boolean. *)
Theorem decoded_value_is_list_iff (data : list byte) (b : byte) (p : nat)
  (e : entry) :
  read_entry data b p = Ok e ->
  (is_list (value e) = true <-> In (cur_value_type e) list_valued_types).
Proof.
  apply read_entry_value_is_list.
Qed.

Lemma decoded_value_is_list_iff_witness :
  is_list (PList [PInt 170]) = true <-> In "octetString" list_valued_types.
Proof.
  exact (decoded_value_is_list_iff
           [x01; x30; x00; x00; x00; x01; xaa; x03] x30 1
           {| cur_value_type := "octetString"; name_length := 0;
              name := PStr ""; value := PList [PInt 170]; next_i := 7 |}
           eq_refl).
Defined.

(** ** The errors of [main] *)

Lemma main_Err_kinds (data : list byte) (e : error) :
  main data = Some (Err e) -> In e main_errors.
Proof.
  intros H. apply main_Err_inv in H.
  destruct H as [[-> _]|(n & st & _ & Hlt & Hb)].
  - cbn. auto 10.
  - apply loop_body_Raise in Hb; [|exact Hlt]. cbn in *. intuition.
Qed.

(** X10. [main] ends with a document or with one of six errors, each of
    which some stream produces: an unsupported value tag, a length past the
    end of the stream, a wrong fixed length, a value entry before any group,
    a fold into an empty group, a missing terminator.  The exit of
    [extract_value] for a type without an extractor is dead code: every type
    name [get_value_type] returns has an extractor. *)
Theorem main_error_kinds (data : list byte) :
  (forall e, main data = Some (Err e) -> In e main_errors) /\
  (forall e, In e main_errors -> exists stream, main stream = Some (Err e)) /\
  main data <> Some (Err UnsupportedValueType) /\
  (forall b value_type start length,
     get_value_type b = Ok value_type ->
     extract_value data value_type start length <> Err UnsupportedValueType).
Proof.
  split; [|split; [|split]].
  - apply main_Err_kinds.
  - intros e He. cbn in He.
    destruct He as [<-|[<-|[<-|[<-|[<-|[<-|[]]]]]]].
    + exists [x99]. reflexivity.
    + exists [x21]. reflexivity.
    + exists [x01; x22; x00; x00; x00; x02; x00; x01; x03]. reflexivity.
    + exists [x22; x00; x00; x00; x01; x01; x03]. reflexivity.
    + exists [x01; x22; x00; x00; x00; x01; x01;
              x02; x22; x00; x00; x00; x01; x00; x03]. reflexivity.
    + exists [x01]. reflexivity.
  - intros H. apply main_Err_kinds in H. cbn in H. intuition discriminate.
  - intros b ty start length Hty H.
    destruct (get_value_type_Ok _ _ Hty) as (f & Hf).
    destruct (le_lt_dec (start + length) (List.length data)) as [Hfit|Hex].
    + destruct (extract_value_fits data ty start length f Hf Hfit)
        as [E [(v & E')|E']]; rewrite E, E' in H; discriminate.
    + rewrite extract_value_exceeds in H by exact Hex. discriminate.
Qed.

(** ** The current group *)

Lemma loop_body_group_in_document data st st' :
  loop_body data st = Continue st' ->
  exists g l, current_attributes_group st' = Some g /\
              dict_get (ipp_attributes st') g = Some l.
Proof.
  unfold loop_body.
  destruct (get data (i st)) as [b|e]; [|discriminate].
  destruct (is_ipp_delimiter b) eqn:Ed.
  - destruct (Byte.eqb b x03) eqn:E3; [discriminate|].
    destruct (get_delimiter_name_group b Ed E3) as (name & -> & _).
    cbn. intros [= <-]. cbn. exists name, []. split; [reflexivity|].
    apply dict_get_set_same.
  - unfold value_entry.
    destruct (read_entry data b (i st)) as [en|err]; cbn [bind]; [|discriminate].
    unfold store_entry.
    destruct (same_type _ _ && _).
    + unfold extend_attribute_values.
      destruct (getitem (ipp_attributes st) (current_attributes_group st))
        as [[g l]|err] eqn:Eg; cbn [bind]; [|discriminate].
      apply getitem_Ok in Eg. destruct Eg as [Eg _].
      destruct (rev l) as [|a before]; cbn; [discriminate|].
      intros [= <-]. cbn. eexists g, _. split; [exact Eg|].
      apply dict_get_set_same.
    + unfold add_attribute.
      destruct (getitem (ipp_attributes st) (current_attributes_group st))
        as [[g l]|err] eqn:Eg; cbn; [|discriminate].
      apply getitem_Ok in Eg. destruct Eg as [Eg _].
      intros [= <-]. cbn. eexists g, _. split; [exact Eg|].
      apply dict_get_set_same.
Qed.

Lemma reaches_group_in_document (data : list byte) (st : state) :
  reaches data st -> group_in_document st.
Proof.
  intros (n & Hn).
  apply (run_steps_invariant data group_in_document)
    with (n := n) (st := initial_state); [| reflexivity | exact Hn].
  intros st1 st2 _ _ Hb.
  destruct (loop_body_group_in_document _ _ _ Hb) as (g & l & Hg & Hl).
  unfold group_in_document. rewrite Hg. exists l. exact Hl.
Qed.

Lemma store_entry_KeyError (st : state) (e : entry) :
  group_in_document st -> store_entry st e = Err KeyError ->
  st = initial_state.
Proof.
  unfold group_in_document, store_entry.
  destruct (current_attributes_group st) as [g|] eqn:Eg; [|auto].
  intros (l & Hl) H. exfalso.
  destruct (same_type _ _ && _).
  - unfold extend_attribute_values, getitem in H. rewrite Hl in H.
    cbn [bind] in H. destruct (rev l); discriminate.
  - unfold add_attribute, getitem in H. rewrite Hl in H. discriminate.
Qed.

(** X11. [main] fails on the missing group (the [KeyError] of indexing the
    document by [None]) exactly when the first byte of the stream is not a
    delimiter and the entry it starts can be read.  Once a group delimiter
    has been passed the current group is always a key of the document, so no
    later entry can fail this way. *)
Theorem value_before_group_only_at_start (data : list byte) :
  (main data = Some (Err KeyError) <->
   exists b e, nth_error data 0 = Some b /\ is_ipp_delimiter b = false /\
               read_entry data b 0 = Ok e) /\
  (forall st, reaches data st -> st <> initial_state ->
     exists g l, current_attributes_group st = Some g /\
                 dict_get (ipp_attributes st) g = Some l).
Proof.
  split.
  - split.
    + intros H. apply main_Err_inv in H.
      destruct H as [[H _]|(n & st & Hn & Hlt & Hb)]; [discriminate|].
      pose proof (reaches_group_in_document data st (ex_intro _ n Hn)) as Hinv.
      unfold loop_body in Hb.
      destruct (get_in_range data (i st) Hlt) as (b & Hnth & Hg).
      rewrite Hg in Hb.
      destruct (is_ipp_delimiter b) eqn:Ed.
      * destruct (Byte.eqb b x03) eqn:E3; [discriminate|].
        destruct (get_delimiter_name_group b Ed E3) as (name & E & _).
        rewrite E in Hb. discriminate.
      * unfold value_entry in Hb.
        destruct (read_entry data b (i st)) as [en|err] eqn:Er; cbn [bind] in Hb.
        -- destruct (store_entry st en) as [st1|err] eqn:Es; [discriminate|].
           injection Hb as ->.
           pose proof (store_entry_KeyError st en Hinv Es) as ->.
           exists b, en. auto.
        -- injection Hb as ->. apply read_entry_Err in Er.
           intuition discriminate.
    + intros (b & e & Hb & Hd & He).
      apply (main_raises data 0 initial_state); [reflexivity| |].
      * apply nth_error_Some. cbn [i initial_state]. congruence.
      * unfold loop_body, get. cbn [i initial_state]. rewrite Hb, Hd.
        unfold value_entry. cbn [i initial_state]. rewrite He. cbn [bind].
        rewrite store_entry_no_group. reflexivity.
  - intros st Hr Hne. pose proof (reaches_group_in_document data st Hr) as Hinv.
    unfold group_in_document in Hinv.
    destruct (current_attributes_group st) as [g|]; [|contradiction].
    destruct Hinv as (l & Hl). exists g, l. auto.
Qed.

(** ** Groups and attributes of the document *)

Lemma dict_get_set_other (d : document) (k k' : string) (v : list attribute) :
  k' <> k -> dict_get (dict_set d k v) k' = dict_get d k'.
Proof.
  intros Hne. unfold dict_get. induction d as [|[k0 v0] d IH]; cbn.
  - destruct (String.eqb_spec k' k); [contradiction | reflexivity].
  - destruct (String.eqb_spec k k0) as [->|Hk0]; cbn.
    + destruct (String.eqb_spec k' k0); [contradiction | reflexivity].
    + destruct (String.eqb_spec k' k0); [reflexivity | exact IH].
Qed.

Lemma dict_set_keys_present (d : document) (k : string) (v : list attribute) :
  In k (keys d) -> keys (dict_set d k v) = keys d.
Proof.
  unfold keys. induction d as [|[k0 v0] d IH]; cbn; [tauto|].
  destruct (String.eqb_spec k k0) as [->|Hne]; cbn; [reflexivity|].
  intros [H|H]; [congruence|]. rewrite IH by exact H. reflexivity.
Qed.

Lemma dict_set_keys_absent (d : document) (k : string) (v : list attribute) :
  ~ In k (keys d) -> keys (dict_set d k v) = keys d ++ [k].
Proof.
  unfold keys. induction d as [|[k0 v0] d IH]; cbn; [reflexivity|].
  intros H. destruct (String.eqb_spec k k0) as [->|Hne]; [tauto|].
  cbn. rewrite IH by tauto. reflexivity.
Qed.

(** X12. At a group delimiter the loop names the group and makes it the
    current one with an empty list of attributes, whatever the document held
    for that name: a second occurrence of a delimiter discards the
    attributes collected under the first.  Every other group keeps its
    attributes, and the order of the keys is kept, a new name going last. *)
Theorem group_delimiter_resets_group (data : list byte) (st : state) (d : byte) :
  nth_error data (i st) = Some d ->
  is_ipp_delimiter d = true ->
  d <> x03 ->
  exists name st',
    get_delimiter_name d = Ok name /\
    loop_body data st = Continue st' /\
    i st' = i st + 1 /\
    current_attributes_group st' = Some name /\
    dict_get (ipp_attributes st') name = Some [] /\
    (forall g, g <> name ->
       dict_get (ipp_attributes st') g = dict_get (ipp_attributes st) g) /\
    (In name (keys (ipp_attributes st)) ->
       keys (ipp_attributes st') = keys (ipp_attributes st)) /\
    (~ In name (keys (ipp_attributes st)) ->
       keys (ipp_attributes st') = keys (ipp_attributes st) ++ [name]).
Proof.
  intros Hd Hdel Hne.
  assert (E3 : Byte.eqb d x03 = false).
  { destruct (byte_eqb_spec d x03); [contradiction | reflexivity]. }
  destruct (get_delimiter_name_group d Hdel E3) as (name & Hname & _).
  exists name. eexists. split; [exact Hname|]. split.
  { exact (group_delimiter_keeps_prev_value_type data st d name Hd Hname Hdel E3). }
  cbn [i current_attributes_group ipp_attributes].
  split; [reflexivity|]. split; [reflexivity|].
  split; [apply dict_get_set_same|].
  split; [intros g Hg; apply dict_get_set_other; exact Hg|].
  split; [apply dict_set_keys_present | apply dict_set_keys_absent].
Qed.

Lemma group_delimiter_resets_group_witness :
  exists name st',
    get_delimiter_name x01 = Ok name /\
    loop_body [x01; x22; x00; x00; x00; x01; x01; x01; x03]
      {| ipp_attributes :=
           [("operationAttributes",
             [ {| attr_type := "boolean"; attr_name := PStr "";
                  attr_value := PBool true |} ])];
         current_attributes_group := Some "operationAttributes";
         prev_value_type := Some "boolean";
         i := 7 |} = Continue st' /\
    dict_get (ipp_attributes st') name = Some [].
Proof.
  destruct (group_delimiter_resets_group
              [x01; x22; x00; x00; x00; x01; x01; x01; x03]
              {| ipp_attributes :=
                   [("operationAttributes",
                     [ {| attr_type := "boolean"; attr_name := PStr "";
                          attr_value := PBool true |} ])];
                 current_attributes_group := Some "operationAttributes";
                 prev_value_type := Some "boolean";
                 i := 7 |} x01)
    as (name & st' & Hname & Hbody & _ & _ & Hempty & _);
    [reflexivity | reflexivity | discriminate |].
  exists name, st'. auto.
Defined.

Lemma store_entry_effect (st : state) (e : entry) (st' : state) :
  store_entry st e = Ok st' ->
  exists g l l',
    current_attributes_group st = Some g /\
    dict_get (ipp_attributes st) g = Some l /\
    ipp_attributes st' = dict_set (ipp_attributes st) g l' /\
    ((same_type (cur_value_type e) (prev_value_type st)
        && (name_length e =? 0)%nat = false /\
      l' = l ++ [ {| attr_type := cur_value_type e;
                     attr_name := name e;
                     attr_value := value e |} ]) \/
     (same_type (cur_value_type e) (prev_value_type st)
        && (name_length e =? 0)%nat = true /\
      exists l0 a, l = l0 ++ [a] /\
        l' = l0 ++ [ {| attr_type := attr_type a;
                        attr_name := attr_name a;
                        attr_value :=
                          PList (match attr_value a with
                                 | PList vs => vs
                                 | v1 => [v1]
                                 end ++ [value e]) |} ])).
Proof.
  unfold store_entry. intros H.
  destruct (same_type _ _ && _) eqn:Efold.
  - unfold extend_attribute_values in H.
    destruct (getitem (ipp_attributes st) (current_attributes_group st))
      as [[g l]|err] eqn:Eg; cbn [bind] in H; [|discriminate].
    apply getitem_Ok in Eg. destruct Eg as [Eg Hl].
    destruct (rev l) as [|a before] eqn:Erev; cbn in H; [discriminate|].
    injection H as <-. cbn [ipp_attributes].
    exists g, l. eexists. split; [exact Eg|]. split; [exact Hl|].
    split; [reflexivity|]. right. split; [reflexivity|].
    exists (rev before), a. split; [|reflexivity].
    rewrite <- (rev_involutive l), Erev. reflexivity.
  - unfold add_attribute in H.
    destruct (getitem (ipp_attributes st) (current_attributes_group st))
      as [[g l]|err] eqn:Eg; cbn in H; [|discriminate].
    apply getitem_Ok in Eg. destruct Eg as [Eg Hl].
    injection H as <-. cbn [ipp_attributes].
    exists g, l. eexists. split; [exact Eg|]. split; [exact Hl|].
    split; [reflexivity|]. left. auto.
Qed.

(** X13. A value entry changes the document in the current group only: the
    other groups keep their attributes and the keys their order.  In the
    current group either one attribute is added at the end, with the type,
    name and value of the entry, or, when the entry has the type of the
    entry before it and an empty name, the last attribute keeps its type and
    name and gets the value of the entry appended to its list of values. *)
Theorem value_entry_changes_current_group_only (st : state) (e : entry)
  (st' : state) :
  store_entry st e = Ok st' ->
  exists g l l',
    current_attributes_group st = Some g /\
    current_attributes_group st' = Some g /\
    dict_get (ipp_attributes st) g = Some l /\
    dict_get (ipp_attributes st') g = Some l' /\
    (forall k, k <> g ->
       dict_get (ipp_attributes st') k = dict_get (ipp_attributes st) k) /\
    keys (ipp_attributes st') = keys (ipp_attributes st) /\
    (l' = l ++ [ {| attr_type := cur_value_type e;
                    attr_name := name e;
                    attr_value := value e |} ] \/
     exists l0 a vs,
       l = l0 ++ [a] /\
       l' = l0 ++ [ {| attr_type := attr_type a;
                       attr_name := attr_name a;
                       attr_value := PList (vs ++ [value e]) |} ] /\
       (attr_value a = PList vs \/
        (is_list (attr_value a) = false /\ vs = [attr_value a]))).
Proof.
  intros H. pose proof (store_entry_Ok _ _ _ H) as (_ & Hgrp & _).
  destruct (store_entry_effect _ _ _ H) as (g & l & l' & Hg & Hl & Hd & Hcase).
  exists g, l, l'. split; [exact Hg|]. split; [congruence|].
  split; [exact Hl|]. rewrite Hd.
  split; [apply dict_get_set_same|].
  split; [intros k Hk; apply dict_get_set_other; exact Hk|].
  split; [apply dict_set_keys_present; eapply dict_get_keys; exact Hl|].
  destruct Hcase as [[_ ->]|[_ (l0 & a & -> & ->)]]; [left; reflexivity|].
  right. exists l0, a. eexists. split; [reflexivity|]. split; [reflexivity|].
  destruct (attr_value a); cbn; auto.
Qed.

Lemma value_entry_changes_current_group_only_witness :
  exists g l l',
    Some "operationAttributes" = Some g /\
    Some "operationAttributes" = Some g /\
    dict_get [("operationAttributes", [])] g = Some l /\
    dict_get
      [("operationAttributes",
        [ {| attr_type := "integer"; attr_name := PStr "";
             attr_value := PInt 42 |} ])] g = Some l' /\
    List.length l' = 1.
Proof.
  destruct (value_entry_changes_current_group_only
              {| ipp_attributes := [("operationAttributes", [])];
                 current_attributes_group := Some "operationAttributes";
                 prev_value_type := None;
                 i := 1 |}
              {| cur_value_type := "integer"; name_length := 0;
                 name := PStr ""; value := PInt 42; next_i := 10 |}
              {| ipp_attributes :=
                   [("operationAttributes",
                     [ {| attr_type := "integer"; attr_name := PStr "";
                          attr_value := PInt 42 |} ])];
                 current_attributes_group := Some "operationAttributes";
                 prev_value_type := Some "integer";
                 i := 10 |} eq_refl)
    as (g & l & l' & Hg & Hg' & Hl & Hl' & _).
  exists g, l, l'. cbn in *. repeat split; try assumption.
  injection Hg as <-. cbn in Hl'. injection Hl' as <-. reflexivity.
Defined.

(** ** Folding in the walker *)

Lemma value_entry_step (data : list byte) (st : state) (b : byte) (e : entry) :
  nth_error data (i st) = Some b ->
  read_entry data b (i st) = Ok e ->
  loop_body data st = lift (store_entry st e).
Proof.
  intros Hb He. unfold loop_body, get. rewrite Hb.
  destruct (read_entry_Ok _ _ _ _ He) as (Hty & _).
  rewrite (value_tag_not_delimiter b _ Hty).
  unfold value_entry. rewrite He. reflexivity.
Qed.

Lemma run_steps_one (data : list byte) (st st' : state) (b : byte) :
  nth_error data (i st) = Some b ->
  loop_body data st = Continue st' ->
  run_steps 1 data st = Some st'.
Proof.
  intros Hb H. cbn [run_steps].
  destruct (Nat.ltb_spec (i st) (List.length data)) as [_|Hge].
  - rewrite H. reflexivity.
  - apply nth_error_None in Hge. congruence.
Qed.

(** An entry that does not fold adds its attribute to the current group. *)
Lemma store_entry_adds (st : state) (e : entry) (g : string) (l : list attribute) :
  current_attributes_group st = Some g ->
  dict_get (ipp_attributes st) g = Some l ->
  same_type (cur_value_type e) (prev_value_type st)
    && (name_length e =? 0)%nat = false ->
  store_entry st e =
  Ok {| ipp_attributes :=
          dict_set (ipp_attributes st) g
            (l ++ [ {| attr_type := cur_value_type e;
                       attr_name := name e;
                       attr_value := value e |} ]);
        current_attributes_group := Some g;
        prev_value_type := Some (cur_value_type e);
        i := next_i e |}.
Proof.
  intros Hg Hl Hf. unfold store_entry. rewrite Hf.
  unfold add_attribute, getitem. rewrite Hg, Hl. reflexivity.
Qed.

(** An unnamed entry of the remembered type folds into the last attribute
    of the current group. *)
Lemma store_entry_folds (st : state) (e : entry) (g : string)
  (l : list attribute) (a : attribute) :
  current_attributes_group st = Some g ->
  dict_get (ipp_attributes st) g = Some (l ++ [a]) ->
  prev_value_type st = Some (cur_value_type e) ->
  name_length e = 0 ->
  store_entry st e =
  Ok {| ipp_attributes :=
          dict_set (ipp_attributes st) g
            (l ++ [ {| attr_type := attr_type a;
                       attr_name := attr_name a;
                       attr_value :=
                         PList (match attr_value a with
                                | PList vs => vs
                                | v1 => [v1]
                                end ++ [value e]) |} ]);
        current_attributes_group := Some g;
        prev_value_type := Some (cur_value_type e);
        i := next_i e |}.
Proof.
  intros Hg Hl Hp Hn. unfold store_entry. rewrite Hp, Hn.
  cbn [same_type]. rewrite String.eqb_refl. cbn [andb Nat.eqb].
  rewrite Hg. rewrite (extend_attribute_values_last _ _ _ _ _ Hl).
  reflexivity.
Qed.

(** X14. The fold law in the walker, for the types whose value is not a
    list: an entry that starts an attribute with value [v1], followed by an
    unnamed entry of the same type with value [v2], leaves one attribute at
    the end of the current group, with the type and name of the first entry
    and the value [[v1, v2]]; a third unnamed entry of the type makes the
    value [[v1, v2, v3]]. *)
Theorem fold_law_in_walker (data : list byte) (st : state) (g : string)
  (l : list attribute) (b1 b2 b3 : byte) (e1 e2 e3 : entry) :
  current_attributes_group st = Some g ->
  dict_get (ipp_attributes st) g = Some l ->
  nth_error data (i st) = Some b1 -> read_entry data b1 (i st) = Ok e1 ->
  same_type (cur_value_type e1) (prev_value_type st)
    && (name_length e1 =? 0)%nat = false ->
  ~ In (cur_value_type e1) list_valued_types ->
  nth_error data (next_i e1) = Some b2 ->
  read_entry data b2 (next_i e1) = Ok e2 ->
  cur_value_type e2 = cur_value_type e1 -> name_length e2 = 0 ->
  (exists st2,
     run_steps 2 data st = Some st2 /\ i st2 = next_i e2 /\
     dict_get (ipp_attributes st2) g =
     Some (l ++ [ {| attr_type := cur_value_type e1;
                     attr_name := name e1;
                     attr_value := PList [value e1; value e2] |} ])) /\
  (nth_error data (next_i e2) = Some b3 ->
   read_entry data b3 (next_i e2) = Ok e3 ->
   cur_value_type e3 = cur_value_type e1 -> name_length e3 = 0 ->
   exists st3,
     run_steps 3 data st = Some st3 /\ i st3 = next_i e3 /\
     dict_get (ipp_attributes st3) g =
     Some (l ++ [ {| attr_type := cur_value_type e1;
                     attr_name := name e1;
                     attr_value := PList [value e1; value e2; value e3] |} ])).
Proof.
  intros Hg Hl Hb1 He1 Hnew Hscalar Hb2 He2 Hty2 Hn2.
  assert (Hv1 : is_list (value e1) = false).
  { destruct (is_list (value e1)) eqn:E; [|reflexivity].
    exfalso. apply Hscalar. apply (read_entry_value_is_list _ _ _ _ He1).
    exact E. }
  pose proof (store_entry_adds st e1 g l Hg Hl Hnew) as S1.
  set (st1 := {| ipp_attributes :=
                   dict_set (ipp_attributes st) g
                     (l ++ [ {| attr_type := cur_value_type e1;
                                attr_name := name e1;
                                attr_value := value e1 |} ]);
                 current_attributes_group := Some g;
                 prev_value_type := Some (cur_value_type e1);
                 i := next_i e1 |}) in *.
  assert (R1 : run_steps 1 data st = Some st1).
  { apply (run_steps_one data st st1 b1 Hb1).
    rewrite (value_entry_step data st b1 e1 Hb1 He1), S1. reflexivity. }
  pose proof (store_entry_folds st1 e2 g l _ eq_refl
                (dict_get_set_same _ _ _)
                ltac:(cbn [prev_value_type st1]; congruence) Hn2) as S2.
  cbn [attr_type attr_name attr_value ipp_attributes st1] in S2.
  assert (Hwrap : match value e1 with PList vs => vs | v1 => [v1] end
                  = [value e1]).
  { destruct (value e1); try reflexivity. discriminate. }
  rewrite Hwrap in S2. cbn [app] in S2.
  match type of S2 with _ = Ok ?s => set (st2 := s) in * end.
  assert (R2 : run_steps 1 data st1 = Some st2).
  { apply (run_steps_one data st1 st2 b2 Hb2).
    rewrite (value_entry_step data st1 b2 e2 Hb2 He2), S2. reflexivity. }
  split.
  - exists st2. split; [exact (run_steps_app data 1 1 st st1 st2 R1 R2)|].
    split; [reflexivity|]. cbn [ipp_attributes st2]. apply dict_get_set_same.
  - intros Hb3 He3 Hty3 Hn3.
    pose proof (store_entry_folds st2 e3 g l _ eq_refl
                  (dict_get_set_same _ _ _)
                  ltac:(cbn [prev_value_type st2]; congruence) Hn3) as S3.
    cbn [attr_type attr_name attr_value ipp_attributes st2 app] in S3.
    match type of S3 with _ = Ok ?s => set (st3 := s) in * end.
    assert (R3 : run_steps 1 data st2 = Some st3).
    { apply (run_steps_one data st2 st3 b3 Hb3).
      rewrite (value_entry_step data st2 b3 e3 Hb3 He3), S3. reflexivity. }
    exists st3.
    split; [exact (run_steps_app data 2 1 st st2 st3
                     (run_steps_app data 1 1 st st1 st2 R1 R2) R3)|].
    split; [reflexivity|]. cbn [ipp_attributes st3]. apply dict_get_set_same.
Qed.

Lemma fold_law_in_walker_witness :
  exists st2,
    run_steps 2
      [x01; x44; x00; x01; x61; x00; x02; x62; x63;
            x44; x00; x00; x00; x01; x64;
            x44; x00; x00; x00; x01; x65; x03]
      {| ipp_attributes := [("operationAttributes", [])];
         current_attributes_group := Some "operationAttributes";
         prev_value_type := None;
         i := 1 |} = Some st2 /\
    i st2 = 15 /\
    dict_get (ipp_attributes st2) "operationAttributes" =
    Some ([] ++ [ {| attr_type := "keyword";
                     attr_name := PStr "a";
                     attr_value := PList [PStr "bc"; PStr "d"] |} ]).
Proof.
  refine (proj1 (fold_law_in_walker
            [x01; x44; x00; x01; x61; x00; x02; x62; x63;
                  x44; x00; x00; x00; x01; x64;
                  x44; x00; x00; x00; x01; x65; x03]
            {| ipp_attributes := [("operationAttributes", [])];
               current_attributes_group := Some "operationAttributes";
               prev_value_type := None;
               i := 1 |}
            "operationAttributes" [] x44 x44 x44
            {| cur_value_type := "keyword"; name_length := 1;
               name := PStr "a"; value := PStr "bc"; next_i := 9 |}
            {| cur_value_type := "keyword"; name_length := 0;
               name := PStr ""; value := PStr "d"; next_i := 15 |}
            {| cur_value_type := "keyword"; name_length := 0;
               name := PStr ""; value := PStr "e"; next_i := 21 |}
            eq_refl eq_refl eq_refl eq_refl eq_refl _ eq_refl eq_refl
            eq_refl eq_refl)).
  cbn. intuition discriminate.
Defined.

(** ** Passes, prefixes and truncation *)

Lemma run_steps_count (data : list byte) (n : nat) (st st' : state) :
  run_steps n data st = Some st' -> i st + n <= i st'.
Proof.
  revert st. induction n as [|n IH]; intros st H; cbn [run_steps] in H.
  - injection H as <-. lia.
  - destruct (i st <? List.length data)%nat; [|discriminate].
    destruct (loop_body data st) as [st1|st1|e] eqn:Eb; try discriminate.
    apply loop_body_Continue in Eb. apply IH in H. lia.
Qed.

(** X15. The loop of [main] makes at most as many full passes as the stream
    has bytes: after [n] passes the index is at least [n] and at most the
    length of the stream.  A pass over a value entry moves the index by at
    least five (the tag and two length fields). *)
Theorem passes_bounded_by_length (data : list byte) (n : nat) (st : state) :
  run_steps n data initial_state = Some st ->
  n <= i st /\ i st <= List.length data /\ n <= List.length data.
Proof.
  intros H. pose proof (run_steps_count _ _ _ _ H) as Hc.
  pose proof (reaches_in_bounds data st (ex_intro _ n H)) as Hb.
  cbn [i initial_state] in Hc. lia.
Qed.

Lemma passes_bounded_by_length_witness :
  2 <= 10 /\ 10 <= List.length
                     [x01; x21; x00; x00; x00; x04; x00; x00; x00; x2a; x03] /\
  2 <= List.length [x01; x21; x00; x00; x00; x04; x00; x00; x00; x2a; x03].
Proof.
  exact (passes_bounded_by_length
           [x01; x21; x00; x00; x00; x04; x00; x00; x00; x2a; x03] 2
           {| ipp_attributes :=
                [("operationAttributes",
                  [ {| attr_type := "integer"; attr_name := PStr "";
                       attr_value := PInt 42 |} ])];
              current_attributes_group := Some "operationAttributes";
              prev_value_type := Some "integer";
              i := 10 |} eq_refl).
Defined.





(** ** The shape of the document *)

Lemma dict_get_In (d : document) (k : string) (l : list attribute) :
  dict_get d k = Some l -> In (k, l) d.
Proof.
  unfold dict_get. induction d as [|[k' v] d IH]; cbn; [discriminate|].
  destruct (String.eqb_spec k k') as [->|Hne].
  - intros [= ->]. left. reflexivity.
  - intros H. right. apply IH. exact H.
Qed.

Lemma dict_set_In (d : document) (k : string) (v : list attribute)
  (g : string) (l : list attribute) :
  In (g, l) (dict_set d k v) -> (g = k /\ l = v) \/ In (g, l) d.
Proof.
  induction d as [|[k0 v0] d IH]; cbn.
  - intros [[= <- <-]|[]]. auto.
  - destruct (String.eqb_spec k k0) as [->|Hne]; cbn.
    + intros [[= <- <-]|H]; auto.
    + intros [H|H]; [auto|]. destruct (IH H); auto.
Qed.

Lemma dict_set_keys_NoDup (d : document) (k : string) (v : list attribute) :
  NoDup (keys d) -> NoDup (keys (dict_set d k v)).
Proof.
  intros H. destruct (in_dec string_dec k (keys d)) as [Hin|Hout].
  - rewrite dict_set_keys_present by exact Hin. exact H.
  - rewrite dict_set_keys_absent by exact Hout.
    apply NoDup_app; [exact H | repeat constructor; intros [] |].
    intros x Hx [<-|[]]. contradiction.
Qed.

Lemma read_entry_well_formed (data : list byte) (b : byte) (p : nat) (e : entry) :
  read_entry data b p = Ok e ->
  In (cur_value_type e) (map snd values_map) /\ exists s, name e = PStr s.
Proof.
  intros H. split.
  - apply read_entry_Ok in H. destruct H as (Hty & _).
    unfold get_value_type in Hty.
    destruct (lookup Byte.eqb b values_map) as [n|] eqn:E; [|discriminate].
    injection Hty as <-. apply lookup_In in E. destruct E as (k & Hin & _).
    apply (in_map snd) in Hin. exact Hin.
  - unfold read_entry in H.
    bind_inv H. bind_inv H. destruct a0 as [nl c1].
    bind_inv H. destruct a0 as [nm c2].
    bind_inv H. destruct a0 as [vl c3].
    bind_inv H. destruct a0 as [v c4].
    injection H as <-. cbn [name].
    destruct (extract_string_value_cases data c1 nl) as [[_ E]|[_ E]];
      rewrite E in Ha1; [|discriminate].
    injection Ha1 as <- _. eexists. reflexivity.
Qed.

Lemma loop_body_well_formed (data : list byte) (st st' : state) :
  well_formed_document (ipp_attributes st) /\ NoDup (keys (ipp_attributes st)) ->
  loop_body data st = Continue st' ->
  well_formed_document (ipp_attributes st') /\
  NoDup (keys (ipp_attributes st')).
Proof.
  intros [Hwf Hnd]. unfold loop_body.
  destruct (get data (i st)) as [b|err]; [|discriminate].
  destruct (is_ipp_delimiter b) eqn:Ed.
  - destruct (Byte.eqb b x03) eqn:E3; [discriminate|].
    destruct (get_delimiter_name_group b Ed E3) as (nm & -> & _).
    cbn. intros [= <-]. cbn [ipp_attributes]. split.
    + intros g l a Hin Ha. apply dict_set_In in Hin.
      destruct Hin as [[_ ->]|Hin]; [destruct Ha|].
      exact (Hwf g l a Hin Ha).
    + apply dict_set_keys_NoDup. exact Hnd.
  - unfold value_entry.
    destruct (read_entry data b (i st)) as [e|err] eqn:Er; cbn [bind];
      [|discriminate].
    destruct (store_entry st e) as [st1|err] eqn:Es; cbn; [|discriminate].
    intros [= <-].
    destruct (store_entry_effect _ _ _ Es) as (g & l & l' & _ & Hl & -> & Hcase).
    split; [|apply dict_set_keys_NoDup; exact Hnd].
    intros g' l'' a Hin Ha. apply dict_set_In in Hin.
    destruct Hin as [[_ ->]|Hin]; [|exact (Hwf g' l'' a Hin Ha)].
    apply dict_get_In in Hl.
    destruct Hcase as [[_ ->]|[_ (l0 & a0 & -> & ->)]];
      apply in_app_or in Ha; destruct Ha as [Ha|[<-|[]]].
    + exact (Hwf g l a Hl Ha).
    + unfold well_formed_attribute. cbn [attr_type attr_name].
      eapply read_entry_well_formed. exact Er.
    + apply (Hwf g (l0 ++ [a0]) a Hl). apply in_or_app. left. exact Ha.
    + unfold well_formed_attribute. cbn [attr_type attr_name].
      apply (Hwf g (l0 ++ [a0]) a0 Hl). apply in_or_app. right. left.
      reflexivity.
Qed.

(** X17. In every document [main] returns, and in the document under
    construction at the top of every pass, the group names are pairwise
    distinct, every attribute has the name of one of the nineteen value
    types as its type, and every attribute has a string as its name. *)
Theorem document_well_formed (data : list byte) :
  (forall st, reaches data st ->
     well_formed_document (ipp_attributes st) /\
     NoDup (keys (ipp_attributes st))) /\
  (forall D, main data = Some (Ok D) ->
     well_formed_document D /\ NoDup (keys D)).
Proof.
  assert (Hr : forall st, reaches data st ->
            well_formed_document (ipp_attributes st) /\
            NoDup (keys (ipp_attributes st))).
  { intros st (n & Hn).
    apply (run_steps_invariant data
             (fun st => well_formed_document (ipp_attributes st) /\
                        NoDup (keys (ipp_attributes st))))
      with (n := n) (st := initial_state); [| | exact Hn].
    - intros st1 st2 HP _ Hb. eapply loop_body_well_formed; eassumption.
    - split; [intros g l a [] | constructor]. }
  split; [exact Hr|].
  intros D H. apply main_Ok_inv in H. destruct H as (n & st & Hn & _ & <-).
  apply Hr. exists n. exact Hn.
Qed.
